(** * Stochastic Lanczos quadrature ([gpytorch/utils/lanczos_quadrature.py])

    A shallow embedding of [StochasticLQ]: the batched Lanczos
    tridiagonalisation ([lanczos_batch], [_lanczos_step_batch],
    [_batch_mv]), the search over leading principal submatrices
    ([binary_search_symeig]) and the estimator ([evaluate]).

    Conventions of the embedding.
    - Scalars are an abstract type [R] with the arithmetic the source
      uses ([Scalar]); no algebraic law is assumed unless a statement
      says so, so the general theorems hold for any deterministic
      arithmetic, IEEE floating point included.  The worked examples run
      on binary64 ([float_scalar]).
    - Tensors are held as the source indexes them, row-major: a
      [(dim, num)] tensor of probe vectors is the list of its [dim] rows,
      [alpha] and [beta] are [(num, num_iters)] and [Q] is
      [(num, dim, num_iters)], preallocated with zeros and written by
      index.  A one-dimensional tensor meets a two-dimensional one as a
      single row.
    - Shapes follow the torch releases the source is written for (0.2 and
      0.3: [squeeze()[0]], [all] over a byte tensor, [symeig] as a
      method).  Operands of a pointwise operation broadcast; operands
      whose shapes neither agree nor broadcast but hold the same number of
      entries are combined in flat row-major order, on the shape of the
      first; a slice is assigned from a tensor that expands to its shape
      or, failing that, holds as many entries, in flat order.  Everything
      else raises.  Nothing is transposed that the source does not
      transpose.
    - Reductions ([sum], [dot], [norm]) add from the left.
    - The symmetric eigen-solver [symeig], the functions handed to
      [evaluate] and the random bits are parameters; the solver and the
      functions are taken to return. *)

From Stdlib Require Import Floats Uint63 ZArith.
From stdpp Require Import base numbers list.

Set Default Proof Using "Type".
#[local] Set Warnings "-inexact-float".
#[local] Open Scope nat_scope.

(** ** Scalars *)

Class Scalar (R : Type) := {
  szero : R;
  sadd : R → R → R;
  ssub : R → R → R;
  smul : R → R → R;
  sdiv : R → R → R;
  sopp : R → R;
  sabs : R → R;
  ssqrt : R → R;
  sltb : R → R → bool;
  sofnat : nat → R;
  lit_1e_10 : R;   (* 1e-10 *)
  lit_1e_4 : R;    (* 1e-4 *)
  lit_1_1e_4 : R;  (* 1.1e-4 *)
}.

(** ** Errors of the Python and torch run time that the source can raise *)

Inductive error :=
| UnboundLocalError   (* the loop variable [k] read after a loop that never ran *)
| IndexError          (* an index outside a tensor *)
| SizeMismatch.       (* RuntimeError: tensors whose sizes do not fit *)

Inductive result (A : Type) :=
| Ok (a : A)
| Err (e : error).
Arguments Ok {A} a.
Arguments Err {A} e.

Definition bind {A B} (r : result A) (f : A → result B) : result B :=
  match r with
  | Ok a => f a
  | Err e => Err e
  end.

Notation "'try!' x := a 'in' b" := (bind a (λ x, b))
  (at level 10, x name, a at level 100, b at level 200, only parsing).

Fixpoint mapM {A B} (f : A → result B) (l : list A) : result (list B) :=
  match l with
  | [] => Ok []
  | x :: l' => try! y := f x in try! ys := mapM f l' in Ok (y :: ys)
  end.

(** ** Tensors *)

Section Tensor.
Context {R : Type} `{Scalar R}.

Definition vec := list R.
Definition matrix := list (list R).

Definition ssum (v : vec) : R := fold_left sadd v szero.
Definition dot (u v : vec) : R := ssum (zip_with smul u v).
(* torch.norm(x, 2) *)
Definition norm2 (v : vec) : R := ssqrt (ssum (map (λ x, smul x x) v)).

(* X.size() of a two-dimensional tensor *)
Definition nrows (M : matrix) : nat := length M.
Definition ncols (M : matrix) : nat :=
  match M with
  | [] => 0
  | r :: _ => length r
  end.
(* M[i][j], zero outside the matrix *)
Definition entry (M : matrix) (i j : nat) : R := nth j (nth i M []) szero.
Definition tabulate2 (r c : nat) (f : nat → nat → R) : matrix :=
  map (λ i, map (f i) (seq 0 c)) (seq 0 r).
(* the entries in row-major order *)
Definition flat (M : matrix) : vec := concat M.

(* X.t() *)
Definition transpose (M : matrix) : matrix :=
  tabulate2 (ncols M) (nrows M) (λ j i, entry M i j).
(* X.sum(0) and torch.norm(X, 2, dim=0): one entry per column *)
Definition col_sums (M : matrix) : vec := map ssum (transpose M).
Definition col_norms (M : matrix) : vec := map norm2 (transpose M).

(** *** Pointwise operations with broadcasting.  Two sizes fit when they
    are equal or one of them is 1; the dimension of size 1 is read at
    index 0. *)
Definition fits (a b : nat) : bool := (a =? b) || (a =? 1) || (b =? 1).
Definition bsize (a b : nat) : nat := if a =? 1 then b else a.
Definition bidx (a i : nat) : nat := if a =? 1 then 0 else i.

Definition pointwise (f : R → R → R) (A B : matrix) : result matrix :=
  if fits (nrows A) (nrows B) && fits (ncols A) (ncols B) then
    Ok (tabulate2 (bsize (nrows A) (nrows B)) (bsize (ncols A) (ncols B))
          (λ i j, f (entry A (bidx (nrows A) i) (bidx (ncols A) j))
                    (entry B (bidx (nrows B) i) (bidx (ncols B) j))))
  else if nrows A * ncols A =? nrows B * ncols B then
    Ok (tabulate2 (nrows A) (ncols A)
          (λ i j, f (entry A i j) (nth (i * ncols A + j) (flat B) szero)))
  else Err SizeMismatch.

(* X / torch.norm(X, 2, dim=0) *)
Definition div_cols (X : matrix) : result matrix :=
  pointwise sdiv X [col_norms X].

(* V.expand(.., r, c) of a two-dimensional V *)
Definition expand (r c : nat) (V : matrix) : result matrix :=
  if ((nrows V =? r) || (nrows V =? 1)) && ((ncols V =? c) || (ncols V =? 1))
  then Ok (tabulate2 r c (λ i j, entry V (bidx (nrows V) i) (bidx (ncols V) j)))
  else Err SizeMismatch.

(** *** [_batch_mv].  [M] is [(num, n, m)]; [V] is expanded to
    [(n, num, m)] and transposed to [(num, n, m)], so that every row of
    [M[j]] meets row [j] of the expanded [V]; the products are summed over
    the last dimension, which gives [(num, n)]. *)
Definition matvec (Mj : matrix) (Vj : vec) : vec :=
  map (λ row, ssum (zip_with smul row Vj)) Mj.
Definition _batch_mv (M : list matrix) (V : matrix) : result matrix :=
  let num := length M in
  let m := ncols (hd [] M) in
  try! V_expand := expand num m V in
  Ok (zip_with matvec M V_expand).

(** *** Writes into [alpha], [beta] and [Q] *)

(* A[:, k] for A of shape (num, num_iters) *)
Definition column (k : nat) (A : list vec) : vec :=
  map (λ row, nth k row szero) A.
(* A[:, k] = vals: vals has num entries, or one entry that is repeated *)
Definition set_column (k : nat) (vals : vec) (A : list vec) : result (list vec) :=
  if length vals =? length A then Ok (zip_with (λ row v, <[k:=v]> row) A vals)
  else if length vals =? 1 then Ok (map (λ row, <[k:=nth 0 vals szero]> row) A)
  else Err SizeMismatch.
(* Q[:, :, k] = U for Q of shape (num, dim, num_iters): the slice has shape
   (num, dim) and U is read as it is, [U[j][d]] for [Q[j][d][k]], when it
   has or expands to that shape, and in flat order otherwise *)
Definition set_Q_column (k : nat) (U : matrix) (Q : list matrix) : result (list matrix) :=
  let num := length Q in
  let dim := nrows (hd [] Q) in
  if ((nrows U =? num) || (nrows U =? 1)) && ((ncols U =? dim) || (ncols U =? 1)) then
    Ok (imap (λ j Qj,
                imap (λ d row, <[k:=entry U (bidx (nrows U) j) (bidx (ncols U) d)]> row) Qj)
             Q)
  else if nrows U * ncols U =? num * dim then
    Ok (imap (λ j Qj, imap (λ d row, <[k:=nth (j * dim + d) (flat U) szero]> row) Qj) Q)
  else Err SizeMismatch.
(* Q[:, :, :k] *)
Definition Q_prefix (k : nat) (Q : list matrix) : list matrix :=
  map (map (take k)) Q.

(* torch.diag(v), torch.diag(v, 1), torch.diag(v, -1) *)
Definition tabulate (n : nat) (f : nat → nat → R) : matrix := tabulate2 n n f.
Definition diag (v : vec) : matrix :=
  tabulate (length v) (λ i j, if i =? j then nth i v szero else szero).
Definition diag_up (v : vec) : matrix :=
  tabulate (S (length v)) (λ i j, if j =? S i then nth i v szero else szero).
Definition diag_down (v : vec) : matrix :=
  tabulate (S (length v)) (λ i j, if i =? S j then nth j v szero else szero).
Definition madd (A B : matrix) : matrix := zip_with (zip_with sadd) A B.

(* T[:m, :m] *)
Definition submatrix (m : nat) (T : matrix) : matrix := map (take m) (take m T).

(** *** [_lanczos_step_batch] *)
Definition add_eps (X : matrix) : matrix := map (map (λ x, sadd x lit_1e_10)) X.

Definition _lanczos_step_batch (U rhs_vectors : matrix)
    (matmul_closure : matrix → result matrix) (Q : list matrix)
    : result (matrix * matrix * vec * vec) :=
  let norm_vs := col_norms rhs_vectors in
  let orig_U := U in
  try! U := pointwise sdiv rhs_vectors [norm_vs] in
  try! X1 := _batch_mv (map transpose Q) (transpose U) in
  try! X2 := _batch_mv Q X1 in
  try! U := pointwise ssub U X2 in
  try! U := div_cols U in
  try! AU := matmul_closure U in
  try! NU := pointwise smul [norm_vs] orig_U in
  try! R0 := pointwise ssub AU NU in
  try! UR := pointwise smul U R0 in
  let a := col_sums UR in
  try! aU := pointwise smul [a] U in
  try! RaU := pointwise ssub R0 aU in
  let rhs_vectors := add_eps RaU in
  Ok (U, rhs_vectors, a, norm_vs).

(** *** The iteration of [lanczos_batch] *)
Record loop_state := {
  st_U : matrix;
  st_rhs : matrix;
  st_alpha : list vec;
  st_beta : list vec;
  st_Q : list matrix;
}.

Definition loop_body (matmul_closure : matrix → result matrix) (k : nat)
    (st : loop_state) : result loop_state :=
  try! s := _lanczos_step_batch (st_U st) (st_rhs st) matmul_closure
                           (Q_prefix k (st_Q st)) in
  try! alpha := set_column k s.1.2 (st_alpha st) in
  try! beta := set_column k s.2 (st_beta st) in
  try! Q := set_Q_column k s.1.1.1 (st_Q st) in
  Ok {| st_U := s.1.1.1; st_rhs := s.1.1.2;
        st_alpha := alpha; st_beta := beta; st_Q := Q |}.

(* all(torch.abs(x) < 1e-4) *)
Definition all_small (x : vec) : bool :=
  forallb (λ b, sltb (sabs b) lit_1e_4) x.
(* the test that guards [break] *)
Definition breakdown (k : nat) (st : loop_state) : bool :=
  all_small (column k (st_beta st)) || all_small (column k (st_alpha st)).

(** [for k in range(1, num_iters): ...; if ...: break].  The first
    component is the value the loop variable holds afterwards, [None]
    when the body never ran. *)
Fixpoint lanczos_loop (matmul_closure : matrix → result matrix)
    (ks : list nat) (k_last : option nat) (st : loop_state)
    : result (option nat * loop_state) :=
  match ks with
  | [] => Ok (k_last, st)
  | k :: ks' =>
      try! st' := loop_body matmul_closure k st in
      if breakdown k st' then Ok (Some k, st')
      else lanczos_loop matmul_closure ks' (Some k) st'
  end.

(** The state on entry to the loop: lines 30 to 47. *)
Definition init_state (num_iters : nat) (matmul_closure : matrix → result matrix)
    (rhs_vectors : matrix) : result loop_state :=
  let dim := nrows rhs_vectors in
  let num_vectors := ncols rhs_vectors in
  let Q := replicate num_vectors (replicate dim (replicate num_iters szero)) in
  let alpha := replicate num_vectors (replicate num_iters szero) in
  let beta := replicate num_vectors (replicate num_iters szero) in
  try! rhs_vectors := div_cols rhs_vectors in
  if num_iters =? 0 then Err IndexError   (* Q[:, :, 0] of a Q without columns *)
  else
  try! Q := set_Q_column 0 rhs_vectors Q in
  let U := rhs_vectors in
  try! R0 := matmul_closure U in
  try! UR := pointwise smul U R0 in
  let a := col_sums UR in
  try! aU := pointwise smul [a] U in
  try! RaU := pointwise ssub R0 aU in
  let rhs_vectors := add_eps RaU in
  try! beta := set_column 0 (col_norms rhs_vectors) beta in
  try! alpha := set_column 0 a alpha in
  Ok {| st_U := U; st_rhs := rhs_vectors;
        st_alpha := alpha; st_beta := beta; st_Q := Q |}.

(* Ts[i, :, :] = M, for a slot of shape (m, m) *)
Definition assign_slice (m : nat) (M : matrix) : result matrix :=
  if (length M =? m) && forallb (λ row, length row =? m) M
  then Ok M else Err SizeMismatch.

(* torch.diag(alpha) + torch.diag(beta, 1) + torch.diag(beta, -1) *)
Definition tridiag (alpha beta : vec) : matrix :=
  madd (madd (diag alpha) (diag_up beta)) (diag_down beta).

Definition assemble (num_iters k : nat) (st : loop_state)
    : result (list matrix * list matrix) :=
  if k =? 1 then
    let Ts := map (λ a, [take k a]) (st_alpha st) in
    let Qs := Q_prefix k (st_Q st) in
    Ok (Qs, Ts)
  else
    let alpha := map (take k) (st_alpha st) in
    let beta := map (λ b, drop 1 (take k b)) (st_beta st) in
    let Qs := Q_prefix k (st_Q st) in
    try! Ts := mapM (λ ab, assign_slice (num_iters - 1) (tridiag ab.1 ab.2))
               (zip alpha beta) in
    Ok (Qs, Ts).

(** Lines 30 to 57: the entry state and the loop. *)
Definition lanczos_iterate (max_iter : nat) (matmul_closure : matrix → result matrix)
    (rhs_vectors : matrix) : result (option nat * loop_state) :=
  let num_iters := min max_iter (nrows rhs_vectors) in
  try! st0 := init_state num_iters matmul_closure rhs_vectors in
  lanczos_loop matmul_closure (seq 1 (num_iters - 1)) None st0.

(** *** [lanczos_batch] *)
Definition lanczos_batch (max_iter : nat) (matmul_closure : matrix → result matrix)
    (rhs_vectors : matrix) : result (list matrix * list matrix) :=
  let num_iters := min max_iter (nrows rhs_vectors) in
  try! r := lanczos_iterate max_iter matmul_closure rhs_vectors in
  match r.1 with
  | None => Err UnboundLocalError   (* if k == 1, with k never bound *)
  | Some k => assemble num_iters k r.2
  end.

End Tensor.

(** ** The estimator *)

Section Estimator.
Context {R : Type} `{Scalar R}.
#[local] Abbreviation vec := (@vec R).
#[local] Abbreviation matrix := (@matrix R).

(** The external symmetric eigen-solver: eigenvalues and eigenvectors
    ([symeig(eigenvectors=True)]); its first component alone is what
    [symeig()] gives. *)
Variable symeig : matrix → vec * matrix.

(* min(f) and torch.min(eigs); the solver returns one eigenvalue per row
   and no caller passes an empty matrix, so the list is not empty *)
Definition py_min (v : vec) : R :=
  match v with
  | [] => szero
  | x :: v' => fold_left (λ m y, if sltb y m then y else m) v' x
  end.

(* torch.min(T[:mid, :mid].symeig()[0]) < -1e-4 *)
Definition prefix_invalid (T : matrix) (mid : nat) : bool :=
  sltb (py_min (symeig (submatrix mid T)).1) (sopp lit_1e_4).

(** *** [binary_search_symeig].  The [while] loop runs on fuel; each round
    shrinks [right - left], so [len(T)] rounds are enough. *)
Fixpoint bsearch_loop (fuel : nat) (T : matrix) (left right : nat) : nat :=
  match fuel with
  | 0 => left
  | S fuel' =>
      if 1 <? right - left then
        let mid := (left + right) / 2 in
        if prefix_invalid T mid
        then bsearch_loop fuel' T left (mid - 1)
        else bsearch_loop fuel' T mid right
      else left
  end.

Definition binary_search_symeig (T : matrix) : nat :=
  bsearch_loop (length T) T 0 (length T).

(** *** [evaluate] *)
Inductive operator :=
| TensorOp (lhs : matrix)                       (* torch.is_tensor(matmul_closure) *)
| ClosureOp (matmul_closure : matrix → result matrix).

Inductive estimate :=
| AbsValue (x : R)              (* the float returned by the 1x1 shortcut *)
| Estimates (results : list R).

Definition numel (M : matrix) : nat := length (concat M).

(* lhs.matmul(tensor): the inner sizes must agree *)
Definition default_matmul_closure (lhs : matrix) (tensor : matrix) : result matrix :=
  if ncols lhs =? nrows tensor
  then Ok (map (λ row, map (λ col, dot row col) (transpose tensor)) lhs)
  else Err SizeMismatch.

(* one entry of cls(n, p).bernoulli_().mul_(2).add_(-1) *)
Definition rademacher (b : bool) : R :=
  sadd (smul (if b then sofnat 1 else sofnat 0) (sofnat 2)) (sopp (sofnat 1)).

(** The random source is a stream of bits [rng] read from position [pos];
    the [(n, p)] tensor is filled in row-major order. *)
Definition draw_probes (rng : nat → bool) (pos n p : nat) : matrix :=
  tabulate2 n p (λ i j, rademacher (rng (pos + i * p + j))).

(* V = cls(n, p).bernoulli_().mul_(2).add_(-1)
   V.div_(torch.norm(V, 2, 0).expand_as(V)) *)
Definition probe_batch (rng : nat → bool) (pos n p : nat) : result matrix :=
  let V := draw_probes rng pos n p in
  try! N := expand n p [col_norms V] in
  pointwise sdiv V N.

(** Eigenvalues and eigenvectors used for one probe: those of [T], or of
    the leading block chosen by the fallback. *)
Definition quad_nodes (T : matrix) : vec * matrix :=
  let '(f, Y) := symeig T in
  if sltb (py_min f) (sopp lit_1e_4) then
    let last_proper := max (binary_search_symeig T) 1 in
    symeig (submatrix last_proper T)
  else (f, Y).

(* u.dot(v): the two have the same number of entries *)
Definition tdot (u v : vec) : result R :=
  if length u =? length v then Ok (dot u v) else Err SizeMismatch.

(* n / float(p) * (Y[0, :].pow(2).dot(func(f + 1.1e-4))) *)
Definition quad_term (n p : nat) (func : vec → vec) (fY : vec * matrix) : result R :=
  try! d := tdot (map (λ y, smul y y) (nth 0 fY.2 []))
            (func (map (λ x, sadd x lit_1_1e_4) fY.1)) in
  Ok (smul (sdiv (sofnat n) (sofnat p)) d).

(* for i, func in enumerate(funcs): results[i] = results[i] + ... *)
Fixpoint accumulate (n p : nat) (ifuncs : list (nat * (vec → vec))) (fY : vec * matrix)
    (results : list R) : result (list R) :=
  match ifuncs with
  | [] => Ok results
  | (i, func) :: rest =>
      try! t := quad_term n p func fY in
      accumulate n p rest fY (<[i:=sadd (nth i results szero) t]> results)
  end.

(* for j in range(num_random_probes): T = Ts[j, :, :]; ... *)
Fixpoint probe_loop (n p : nat) (funcs : list (vec → vec)) (Ts : list matrix)
    (js : list nat) (results : list R) : result (list R) :=
  match js with
  | [] => Ok results
  | j :: js' =>
      match Ts !! j with
      | None => Err IndexError
      | Some T =>
          try! results := accumulate n p (zip (seq 0 (length funcs)) funcs)
                                (quad_nodes T) results in
          probe_loop n p funcs Ts js' results
      end
  end.

Definition evaluate (max_iter num_random_probes : nat) (op : operator) (n : nat)
    (funcs : list (vec → vec)) (rng : nat → bool) (pos : nat)
    : result estimate * nat :=
  let run matmul_closure :=
    let results := replicate (length funcs) szero in
    (try! V := probe_batch rng pos n num_random_probes in
     try! QT := lanczos_batch max_iter matmul_closure V in
     try! res := probe_loop n num_random_probes funcs QT.2
                       (seq 0 num_random_probes) results in
     Ok (Estimates res),
     pos + n * num_random_probes) in
  match op with
  | TensorOp lhs =>
      if numel lhs =? 1
      then (Ok (AbsValue (sabs (nth 0 (concat lhs) szero))), pos)
      else run (default_matmul_closure lhs)
  | ClosureOp f => run f
  end.

End Estimator.

(** ** The arithmetic of the worked examples *)

(** binary64, the arithmetic of [torch.DoubleTensor]. *)
#[export] Instance float_scalar : Scalar float := {|
  szero := 0%float;
  sadd := PrimFloat.add;
  ssub := PrimFloat.sub;
  smul := PrimFloat.mul;
  sdiv := PrimFloat.div;
  sopp := PrimFloat.opp;
  sabs := PrimFloat.abs;
  ssqrt := PrimFloat.sqrt;
  sltb := PrimFloat.ltb;
  sofnat := λ n, PrimFloat.of_uint63 (Uint63.of_Z (Z.of_nat n));
  lit_1e_10 := 1e-10%float;
  lit_1e_4 := 1e-4%float;
  lit_1_1e_4 := 1.1e-4%float;
|}.

(** ** Eigen-solvers for the worked examples

    [symeig_diag] reads a diagonal matrix: its eigenvalues are the diagonal
    entries, in ascending order as [symeig] returns them, and the
    eigenvectors are the matching unit vectors.  [symeig_small] adds the
    closed form for a symmetric 2 x 2 matrix [[a, b], [b, c]] with
    [b <> 0]: the eigenvalues are [(a + c) / 2 -+ sqrt(((a - c) / 2)^2 + b^2)]
    and the eigenvector of [l] is [(b, l - a)] scaled to unit norm; the
    columns of [Y] are the eigenvectors. *)

Section Solvers.
Context {R : Type} `{Scalar R}.

Fixpoint insert_sorted (x : R * nat) (l : list (R * nat)) : list (R * nat) :=
  match l with
  | [] => [x]
  | y :: l' => if sltb x.1 y.1 then x :: l else y :: insert_sorted x l'
  end.

Definition symeig_diag (T : @matrix R) : @vec R * @matrix R :=
  let d := imap (λ i row, (nth i row szero, i)) T in
  let s := foldr insert_sorted [] d in
  (map fst s,
   map (λ r, map (λ xi : R * nat, if xi.2 =? r then sofnat 1 else szero) s)
       (seq 0 (length T))).

Definition symeig_small (T : @matrix R) : @vec R * @matrix R :=
  match T with
  | [[a; b]; [_; c]] =>
      if sltb szero (sabs b) then
        let h := sdiv (sadd a c) (sofnat 2) in
        let d := sdiv (ssub a c) (sofnat 2) in
        let s := ssqrt (sadd (smul d d) (smul b b)) in
        let l1 := ssub h s in
        let l2 := sadd h s in
        let n1 := norm2 [b; ssub l1 a] in
        let n2 := norm2 [b; ssub l2 a] in
        ([l1; l2],
         [[sdiv b n1; sdiv b n2];
          [sdiv (ssub l1 a) n1; sdiv (ssub l2 a) n2]])
      else symeig_diag T
  | _ => symeig_diag T
  end.

End Solvers.

(** ** Devices for the statements *)

Section Devices.
Context {R : Type} `{Scalar R}.
#[local] Abbreviation vec := (@vec R).
#[local] Abbreviation matrix := (@matrix R).
#[local] Abbreviation loop_state := (@loop_state R).
#[local] Abbreviation operator := (@operator R).

(** The state after the rounds [a, a + 1, ..., a + i - 1] of the loop body,
    had no [break] been taken; an error of a round is kept.  [unrolled] is
    the state after the rounds [1, ..., k]. *)
Definition run_rounds (matmul_closure : matrix → result matrix) (a : nat)
    (st0 : loop_state) (i : nat) : result loop_state :=
  fold_left (λ r k, try! st := r in loop_body matmul_closure k st) (seq a i) (Ok st0).
Definition unrolled (matmul_closure : matrix → result matrix) (st0 : loop_state)
    (k : nat) : result loop_state :=
  run_rounds matmul_closure 1 st0 k.

(** The test of [break] read per probe: every probe's [|beta_k|], or
    every probe's [|alpha_k|], is below [1e-4]. *)
Definition every_probe_small (x : vec) : Prop :=
  ∀ j b, x !! j = Some b → sltb (sabs b) lit_1e_4 = true.
Definition batch_breakdown (k : nat) (st : loop_state) : Prop :=
  every_probe_small (column k (st_beta st)) ∨
  every_probe_small (column k (st_alpha st)).

(** What binary64 has of the neutrality of zero: adding zero on either
    side gives the same, adding it twice changes nothing more, and
    [0 + 0 = 0].  ([x + 0] is [x] but for [x = -0], where it is [+0].) *)
Definition zero_laws : Prop :=
  (∀ x : R, sadd szero x = sadd x szero) ∧
  (∀ x : R, sadd (sadd x szero) szero = sadd x szero) ∧
  sadd szero szero = (szero : R).

(** The rows of [alpha] and [beta] and the rows of every [Q[j]] have [n]
    entries, as allocated. *)
Definition well_shaped (n : nat) (st : loop_state) : Prop :=
  Forall (λ row, length row = n) (st_alpha st) ∧
  Forall (λ row, length row = n) (st_beta st) ∧
  Forall (Forall (λ row, length row = n)) (st_Q st).

(** [alpha], [beta] and [Q] have one slot for each of [p] probes. *)
Definition batch_of (p : nat) (st : loop_state) : Prop :=
  length (st_alpha st) = p ∧ length (st_beta st) = p ∧ length (st_Q st) = p.

(** A tensor of [r] rows and [c] columns, and a three-dimensional tensor
    of [p] matrices of that shape. *)
Definition has_shape (r c : nat) (M : matrix) : Prop :=
  length M = r ∧ Forall (λ row, length row = c) M.
Definition has_shape3 (p r c : nat) (Q : list matrix) : Prop :=
  length Q = p ∧ Forall (has_shape r c) Q.

(** The operator returns, for every tensor of [dim] rows, a tensor of the
    same shape. *)
Definition keeps_shape (dim : nat) (matmul_closure : matrix → result matrix) : Prop :=
  ∀ X c, has_shape dim c X → ∃ Y, matmul_closure X = Ok Y ∧ has_shape dim c Y.

(** The shapes of the loop state for [num] probes on dimension [dim] and
    [n] allocated columns: [U] and [rhs_vectors] are [(dim, num)], [Q] is
    [(num, dim, n)], [alpha] and [beta] are [(num, n)]. *)
Definition state_shape (dim num n : nat) (st : loop_state) : Prop :=
  has_shape dim num (st_U st) ∧ has_shape dim num (st_rhs st) ∧
  has_shape3 num dim n (st_Q st) ∧
  has_shape num n (st_alpha st) ∧ has_shape num n (st_beta st).

(** The operator that [evaluate] hands to [lanczos_batch], and whether
    [evaluate] takes the 1 x 1 shortcut instead. *)
Definition op_closure (op : operator) : matrix → result matrix :=
  match op with
  | TensorOp lhs => default_matmul_closure lhs
  | ClosureOp f => f
  end.
Definition takes_shortcut (op : operator) : bool :=
  match op with
  | TensorOp lhs => numel lhs =? 1
  | ClosureOp _ => false
  end.

(** The test that sends a probe to the fallback: [min(f) < -1e-4]. *)
Definition needs_fallback (f : vec) : bool := sltb (py_min f) (sopp lit_1e_4).

End Devices.

(** ** Data of the worked examples *)

(** An operator with the two eigenvalues 1 and 2 on dimension 4. *)
Definition op_two_eigs : @matrix float :=
  [[1;0;0;0]; [0;2;0;0]; [0;0;1;0]; [0;0;0;2]]%float.

(** A tridiagonal (here diagonal) matrix whose leading blocks of size 1
    and 2 are positive and whose larger leading blocks have the
    eigenvalue -1. *)
Definition T_defect : @matrix float :=
  [[1;0;0;0;0;0]; [0;1;0;0;0;0]; [0;0;-1;0;0;0];
   [0;0;0;1;0;0]; [0;0;0;0;1;0]; [0;0;0;0;0;1]]%float.

(** An operator on dimension 3 with the eigenvector (1,1,1). *)
Definition op_circ : @matrix float := [[2;1;1]; [1;2;1]; [1;1;2]]%float.

(** Probe tensors of shape [(dim, num)]: a column is a probe. *)
Definition ones_4x4 : @matrix float :=
  [[1;1;1;1]; [1;1;1;1]; [1;1;1;1]; [1;1;1;1]]%float.
Definition probes_3x3 : @matrix float :=
  [[1;1;1]; [1;-1;1]; [1;1;-1]]%float.

(** The bit stream that draws +1 everywhere, and one that draws
    [probes_3x3]. *)
Definition all_ones : nat → bool := λ _, true.
Definition bits_3x3 : nat → bool := λ i, negb ((i =? 4) || (i =? 8)).

(** * Proofs *)

(* [vec] and [matrix] are list types; unfolding them lets rewriting and
   [lia] see one spelling of every term. *)
Ltac unalias := unfold vec, matrix in *.

Lemma bind_Ok {A B} (r : result A) (f : A → result B) (b : B) :
  bind r f = Ok b ↔ ∃ a, r = Ok a ∧ f a = Ok b.
Proof.
  destruct r as [a|e]; cbn [bind]; split.
  - intros Hf. by exists a.
  - by intros (a' & [= <-] & Hf).
  - discriminate.
  - by intros (a' & [=] & _).
Qed.

(* Splits a hypothesis [bind r f = Ok b] into [r = Ok a] and [f a = Ok b]. *)
Ltac inv_bind H :=
  let a := fresh "a" in
  let E := fresh "E" in
  apply bind_Ok in H as (a & E & H).

(* Runs one step of a chain of binds: [lem] gives the value and its shape. *)
Ltac step lem X HX Hs :=
  destruct lem as (X & HX & Hs); [try assumption; try lia..|];
  rewrite HX; cbn [bind].

Section LoopFacts.
Context {R : Type} `{Scalar R}.
#[local] Abbreviation vec := (@vec R).
#[local] Abbreviation matrix := (@matrix R).
#[local] Abbreviation loop_state := (@loop_state R).

Lemma lookup_map {A B} (f : A → B) (l : list A) (i : nat) :
  map f l !! i = f <$> l !! i.
Proof. apply (list_lookup_fmap f l i). Qed.

(** *** The loop, round by round *)

Lemma rounds_Err (cl : matrix → result matrix) (ks : list nat) (e : error) :
  fold_left (λ r k, try! st := r in loop_body cl k st) ks (Err e) = Err e.
Proof. induction ks as [|k ks IH]; [reflexivity | exact IH]. Qed.

Lemma run_rounds_S_l (cl : matrix → result matrix) (a i : nat) (st0 : loop_state) :
  run_rounds cl a st0 (S i) =
  try! st1 := loop_body cl a st0 in run_rounds cl (S a) st1 i.
Proof.
  unfold run_rounds. cbn [seq fold_left bind].
  destruct (loop_body cl a st0) as [st1|e]; cbn [bind]; [reflexivity | apply rounds_Err].
Qed.

Lemma run_rounds_S_r (cl : matrix → result matrix) (a i : nat) (st0 : loop_state) :
  run_rounds cl a st0 (S i) =
  try! st := run_rounds cl a st0 i in loop_body cl (a + i) st.
Proof. unfold run_rounds. by rewrite seq_S, fold_left_app. Qed.

Lemma unrolled_S (cl : matrix → result matrix) (st0 : loop_state) (k : nat) :
  unrolled cl st0 (S k) = try! st := unrolled cl st0 k in loop_body cl (S k) st.
Proof. apply run_rounds_S_r. Qed.

Lemma unrolled_prefix (cl : matrix → result matrix) (st0 st : loop_state) (k : nat) :
  unrolled cl st0 k = Ok st → ∀ i, i ≤ k → ∃ sti, unrolled cl st0 i = Ok sti.
Proof.
  revert st. induction k as [|k IH]; intros st Hk i Hi.
  - assert (i = 0) as -> by lia. by exists st.
  - destruct (decide (i = S k)) as [->|Hne]; [by exists st|].
    rewrite unrolled_S in Hk. inv_bind Hk. eapply IH; [exact E | lia].
Qed.

Lemma lanczos_loop_cases (cl : matrix → result matrix) (m : nat) :
  ∀ a last st0 ko st,
    lanczos_loop cl (seq a m) last st0 = Ok (ko, st) →
    (m = 0 ∧ ko = last ∧ st = st0) ∨ (∃ k, ko = Some k ∧ a ≤ k ∧ k < a + m).
Proof.
  induction m as [|m IH]; intros a last st0 ko st Hl.
  - left. by injection Hl as <- <-.
  - right. cbn [seq lanczos_loop] in Hl. inv_bind Hl.
    destruct (breakdown a a0).
    + injection Hl as <- <-. exists a. repeat split; lia.
    + apply IH in Hl as [(-> & -> & ->)|(k & -> & Hk1 & Hk2)].
      * exists a. repeat split; lia.
      * exists k. repeat split; lia.
Qed.

Lemma lanczos_loop_exit (cl : matrix → result matrix) (m : nat) :
  ∀ a last st0 k st, a ≤ k → k < a + m →
    lanczos_loop cl (seq a m) last st0 = Ok (Some k, st) ↔
      run_rounds cl a st0 (S (k - a)) = Ok st ∧
      (breakdown k st = true ∨ k = a + m - 1) ∧
      ∀ k', a ≤ k' → k' < k →
        ∃ st', run_rounds cl a st0 (S (k' - a)) = Ok st' ∧ breakdown k' st' = false.
Proof.
  induction m as [|m IH]; intros a last st0 k st Hak Hkm; [lia|].
  cbn [seq lanczos_loop].
  assert (Hrun : ∀ i, run_rounds cl a st0 (S i) =
                      try! st1 := loop_body cl a st0 in run_rounds cl (S a) st1 i)
    by (intros i; apply run_rounds_S_l).
  destruct (loop_body cl a st0) as [st1|e] eqn:E1; cbn [bind] in *.
  - destruct (decide (k = a)) as [->|Hne].
    + rewrite Nat.sub_diag, Hrun. change (run_rounds cl (S a) st1 0) with (Ok st1).
      destruct (breakdown a st1) eqn:Eb.
      * split.
        -- intros [= <-]. rewrite Eb. split; [reflexivity|]. split; [by left | intros; lia].
        -- by intros ([= <-] & _).
      * split.
        -- intros Hl. apply lanczos_loop_cases in Hl as [(-> & _ & ->)|(k & [= <-] & ? & ?)];
             [|lia].
           split; [reflexivity|]. split; [right; lia | intros; lia].
        -- intros ([= <-] & [Hb|Hk] & _); [congruence|].
           assert (m = 0) as -> by lia. reflexivity.
    + assert (Hsub : k - a = S (k - S a)) by lia.
      destruct (breakdown a st1) eqn:Eb.
      * split; [intros [= ? ?]; lia|].
        intros (_ & _ & Hprev). destruct (Hprev a) as (st' & Hr & Hb); [lia..|].
        rewrite Nat.sub_diag, Hrun in Hr. injection Hr as <-. congruence.
      * rewrite (IH (S a) (Some a) st1 k st) by lia.
        rewrite Hrun, Hsub.
        split; intros (Hr & Hb & Hprev); (split; [exact Hr|]); (split; [destruct Hb; [by left | right; lia]|]).
        -- intros k' Hk1 Hk2. destruct (decide (k' = a)) as [->|Hne'].
           ++ exists st1. rewrite Nat.sub_diag, Hrun. by split.
           ++ destruct (Hprev k') as (st' & Hr' & Hb'); [lia..|].
              exists st'. rewrite Hrun. replace (k' - a) with (S (k' - S a)) by lia. by split.
        -- intros k' Hk1 Hk2. destruct (Hprev k') as (st' & Hr' & Hb'); [lia..|].
           exists st'. rewrite Hrun in Hr'. replace (k' - a) with (S (k' - S a)) in Hr' by lia.
           by split.
  - split; [discriminate|]. intros (Hr & _). by rewrite Hrun in Hr.
Qed.

Lemma lanczos_loop_inv (P : loop_state → Prop) (cl : matrix → result matrix) :
  (∀ k st st', P st → loop_body cl k st = Ok st' → P st') →
  ∀ ks last st r, P st → lanczos_loop cl ks last st = Ok r → P r.2.
Proof.
  intros Hstep. induction ks as [|k ks IH]; intros last st r Hst Hl; cbn [lanczos_loop] in Hl.
  - by injection Hl as <-.
  - inv_bind Hl. pose proof (Hstep _ _ _ Hst E) as Ha.
    destruct (breakdown k a); [by injection Hl as <- | by eapply IH].
Qed.

Lemma lanczos_loop_last (cl : matrix → result matrix) (m : nat) (st st' : loop_state) ko :
  lanczos_loop cl (seq 1 m) None st = Ok (ko, st') →
  (m = 0 ∧ ko = None ∧ st' = st) ∨
  (∃ k, ko = Some k ∧ 1 ≤ k ∧ k ≤ m ∧ unrolled cl st k = Ok st').
Proof.
  intros Hl. destruct (lanczos_loop_cases _ _ _ _ _ _ _ Hl) as [?|(k & -> & Hk1 & Hk2)];
    [by left|right].
  exists k. split; [reflexivity|]. split; [exact Hk1|]. split; [lia|].
  apply lanczos_loop_exit in Hl as (Hr & _); [|lia..].
  unfold unrolled. by replace (S (k - 1)) with k in Hr by lia.
Qed.

Lemma all_small_spec (x : vec) : all_small x = true ↔ every_probe_small x.
Proof.
  unfold all_small, every_probe_small. rewrite forallb_forall. split.
  - intros Hx j b Hj. apply Hx. apply list_elem_of_In. eapply list_elem_of_lookup_2, Hj.
  - intros Hx b Hb. apply list_elem_of_In, list_elem_of_lookup_1 in Hb as [j Hj]. eapply Hx, Hj.
Qed.

Lemma breakdown_spec (k : nat) (st : loop_state) :
  breakdown k st = true ↔ batch_breakdown k st.
Proof.
  unfold breakdown, batch_breakdown. rewrite orb_true_iff, !all_small_spec. reflexivity.
Qed.

(** C2: the loop leaves early at round [k], a round before the last, exactly
    when [k] is the first round after which every probe's [|beta_k|], or
    every probe's [|alpha_k|], is below [1e-4]; the test is one reduction
    over the whole batch, and the state on exit is that of [k] full rounds
    for every probe, so no probe leaves on its own. *)
Theorem lanczos_loop_early_exit (cl : matrix → result matrix) (m : nat)
    (st0 : loop_state) (k : nat) (st : loop_state) :
  1 ≤ k → k < m →
  lanczos_loop cl (seq 1 m) None st0 = Ok (Some k, st) ↔
    unrolled cl st0 k = Ok st ∧ batch_breakdown k st ∧
    ∀ k', 1 ≤ k' → k' < k →
      ∃ st', unrolled cl st0 k' = Ok st' ∧ ¬ batch_breakdown k' st'.
Proof.
  intros Hk1 Hkm. rewrite lanczos_loop_exit by lia. unfold unrolled.
  replace (S (k - 1)) with k by lia.
  split; intros (Hr & Hb & Hprev); (split; [exact Hr|]); split.
  - destruct Hb as [Hb|]; [by apply breakdown_spec | lia].
  - intros k' H1 H2. destruct (Hprev k' H1 H2) as (st' & Hr' & Hb').
    exists st'. replace (S (k' - 1)) with k' in Hr' by lia. split; [exact Hr'|].
    rewrite <- breakdown_spec. congruence.
  - left. by apply breakdown_spec.
  - intros k' H1 H2. destruct (Hprev k' H1 H2) as (st' & Hr' & Hb').
    exists st'. replace (S (k' - 1)) with k' by lia. split; [exact Hr'|].
    rewrite <- breakdown_spec in Hb'. by destruct (breakdown k' st').
Qed.

End LoopFacts.

Section ShapeFacts.
Context {R : Type} `{Scalar R}.
#[local] Abbreviation vec := (@vec R).
#[local] Abbreviation matrix := (@matrix R).
#[local] Abbreviation loop_state := (@loop_state R).

(** *** Shapes are kept by the writes *)

Lemma nth_insert_ne (k i : nat) (x : R) (row : vec) :
  i ≠ k → nth i (<[k:=x]> row) szero = nth i row szero.
Proof. intros Hik. by rewrite !nth_lookup, list_lookup_insert_ne. Qed.

Lemma set_column_lookup (k : nat) (vals : vec) (A A' : list vec) (j : nat) (row' : vec) :
  set_column k vals A = Ok A' → A' !! j = Some row' →
  ∃ row x, A !! j = Some row ∧ row' = <[k:=x]> row.
Proof.
  unfold set_column. intros Hs Hj.
  destruct (length vals =? length A); [|destruct (length vals =? 1); [|discriminate]];
    injection Hs as <-.
  - apply lookup_zip_with_Some in Hj as (row & x & -> & Hrow & _). by exists row, x.
  - rewrite lookup_map in Hj. apply fmap_Some in Hj as (row & Hrow & ->). by eexists row, _.
Qed.

Lemma set_column_length (k : nat) (vals : vec) (A A' : list vec) :
  set_column k vals A = Ok A' → length A' = length A.
Proof.
  unfold set_column. intros Hs.
  destruct (length vals =? length A) eqn:E; [|destruct (length vals =? 1); [|discriminate]];
    injection Hs as <-.
  - apply Nat.eqb_eq in E. rewrite length_zip_with. lia.
  - apply length_map.
Qed.

Lemma set_column_rows (n k : nat) (vals : vec) (A A' : list vec) :
  set_column k vals A = Ok A' →
  Forall (λ row, length row = n) A → Forall (λ row, length row = n) A'.
Proof.
  intros Hs HA. apply Forall_lookup. intros j row' Hj.
  destruct (set_column_lookup _ _ _ _ _ _ Hs Hj) as (row & x & Hrow & ->).
  rewrite length_insert. exact (Forall_lookup_1 _ _ _ _ HA Hrow).
Qed.

Lemma take_set_column (k : nat) (vals : vec) (A A' : list vec) :
  set_column k vals A = Ok A' → map (take k) A' = map (take k) A.
Proof.
  intros Hs. apply list_eq. intros j. rewrite !lookup_map. unalias.
  destruct (A' !! j) as [row'|] eqn:Ej.
  - destruct (set_column_lookup _ _ _ _ _ _ Hs Ej) as (row & x & Hrow & ->).
    unalias. rewrite Hrow. cbn. f_equal. apply take_insert_ge. lia.
  - pose proof (set_column_length _ _ _ _ Hs) as Hlen. unalias.
    apply lookup_ge_None in Ej. rewrite Hlen in Ej.
    apply lookup_ge_None in Ej. by rewrite Ej.
Qed.

Lemma entry_set_column_ne (k i j : nat) (vals : vec) (A A' : list vec) :
  set_column k vals A = Ok A' → i ≠ k → entry A' j i = entry A j i.
Proof.
  intros Hs Hik. unfold entry. unalias.
  destruct (A' !! j) as [row'|] eqn:Ej.
  - destruct (set_column_lookup _ _ _ _ _ _ Hs Ej) as (row & x & Hrow & ->).
    rewrite (nth_lookup_Some _ _ _ _ Ej), (nth_lookup_Some _ _ _ _ Hrow).
    by apply nth_insert_ne.
  - pose proof (set_column_length _ _ _ _ Hs) as Hlen. unalias.
    pose proof Ej as Ej'. apply lookup_ge_None in Ej'.
    rewrite Hlen in Ej'. apply lookup_ge_None in Ej'.
    by rewrite !nth_lookup, Ej, Ej'.
Qed.

Lemma set_Q_column_lookup (k : nat) (U : matrix) (Q Q' : list matrix) (j d : nat)
    (Qj' : matrix) (row' : vec) :
  set_Q_column k U Q = Ok Q' → Q' !! j = Some Qj' → Qj' !! d = Some row' →
  ∃ Qj row x, Q !! j = Some Qj ∧ Qj !! d = Some row ∧ row' = <[k:=x]> row.
Proof.
  unfold set_Q_column. cbv zeta. intros Hs Hj Hd.
  destruct (_ && _); [|destruct (_ =? _); [|discriminate]]; injection Hs as <-;
    rewrite list_lookup_imap in Hj; apply fmap_Some in Hj as (Qj & HQj & ->);
    unalias;
    rewrite list_lookup_imap in Hd; apply fmap_Some in Hd as (row & Hrow & ->);
    by eexists Qj, row, _.
Qed.

Lemma set_Q_column_length (k : nat) (U : matrix) (Q Q' : list matrix) :
  set_Q_column k U Q = Ok Q' → length Q' = length Q.
Proof.
  unfold set_Q_column. cbv zeta. intros Hs.
  destruct (_ && _); [|destruct (_ =? _); [|discriminate]]; injection Hs as <-;
    apply length_imap.
Qed.

Lemma set_Q_column_rows (n k : nat) (U : matrix) (Q Q' : list matrix) :
  set_Q_column k U Q = Ok Q' →
  Forall (Forall (λ row, length row = n)) Q → Forall (Forall (λ row, length row = n)) Q'.
Proof.
  intros Hs HQ. apply Forall_lookup. intros j Qj' Hj.
  apply Forall_lookup. intros d row' Hd.
  destruct (set_Q_column_lookup _ _ _ _ _ _ _ _ Hs Hj Hd) as (Qj & row & x & HQj & Hrow & ->).
  rewrite length_insert.
  exact (Forall_lookup_1 _ _ _ _ (Forall_lookup_1 _ _ _ _ HQ HQj) Hrow).
Qed.

(** *** The state keeps its allocated shape *)

Lemma init_state_shape (n : nat) (cl : matrix → result matrix) (rhs : matrix)
    (st0 : loop_state) :
  init_state n cl rhs = Ok st0 →
  1 ≤ n ∧ well_shaped n st0 ∧ batch_of (ncols rhs) st0.
Proof.
  unfold init_state. cbv zeta. intros Hi.
  inv_bind Hi. destruct (n =? 0) eqn:En; [discriminate|]. apply Nat.eqb_neq in En.
  inv_bind Hi. inv_bind Hi. inv_bind Hi. inv_bind Hi. inv_bind Hi. inv_bind Hi. inv_bind Hi.
  injection Hi as <-. split; [lia|].
  unfold well_shaped, batch_of. cbn [st_alpha st_beta st_Q].
  assert (Hrows : Forall (λ row : list R, length row = n)
                         (replicate (ncols rhs) (replicate n szero)))
    by (apply Forall_replicate, length_replicate).
  assert (HQrows : Forall (Forall (λ row : list R, length row = n))
                          (replicate (ncols rhs) (replicate (nrows rhs) (replicate n szero))))
    by (apply Forall_replicate, Forall_replicate, length_replicate).
  pose proof (set_column_length _ _ _ _ E5) as Hl5.
  pose proof (set_column_length _ _ _ _ E6) as Hl6.
  pose proof (set_Q_column_length _ _ _ _ E0) as Hl0.
  rewrite length_replicate in Hl5. rewrite length_replicate in Hl6.
  rewrite length_replicate in Hl0.
  repeat split; eauto using set_column_rows, set_Q_column_rows.
Qed.

Lemma loop_body_shape (n p : nat) (cl : matrix → result matrix) (k : nat)
    (st st' : loop_state) :
  loop_body cl k st = Ok st' →
  (well_shaped n st → well_shaped n st') ∧ (batch_of p st → batch_of p st').
Proof.
  unfold loop_body. intros Hb. inv_bind Hb. inv_bind Hb. inv_bind Hb. inv_bind Hb.
  injection Hb as <-. unfold well_shaped, batch_of. cbn [st_alpha st_beta st_Q].
  split.
  - intros (Ha & Hbe & HQ).
    repeat split; eauto using set_column_rows, set_Q_column_rows.
  - intros (Ha & Hbe & HQ).
    rewrite (set_column_length _ _ _ _ E0), (set_column_length _ _ _ _ E1),
      (set_Q_column_length _ _ _ _ E2). by repeat split.
Qed.

Lemma loop_body_keeps_columns (cl : matrix → result matrix) (k : nat)
    (st st' : loop_state) :
  loop_body cl k st = Ok st' →
  map (take k) (st_alpha st') = map (take k) (st_alpha st) ∧
  map (take k) (st_beta st') = map (take k) (st_beta st) ∧
  ∀ i j, i ≠ k →
    entry (st_alpha st') j i = entry (st_alpha st) j i ∧
    entry (st_beta st') j i = entry (st_beta st) j i.
Proof.
  unfold loop_body. intros Hb. inv_bind Hb. inv_bind Hb. inv_bind Hb. inv_bind Hb.
  injection Hb as <-. cbn [st_alpha st_beta].
  split; [by eapply take_set_column|]. split; [by eapply take_set_column|].
  intros i j Hik. split; by eapply entry_set_column_ne.
Qed.

(** *** What a returning call went through *)

Lemma lanczos_iterate_inv (max_iter : nat) (cl : matrix → result matrix) (rhs : matrix)
    (ko : option nat) (st : loop_state) :
  lanczos_iterate max_iter cl rhs = Ok (ko, st) →
  let n := min max_iter (nrows rhs) in
  ∃ st0, init_state n cl rhs = Ok st0 ∧
    lanczos_loop cl (seq 1 (n - 1)) None st0 = Ok (ko, st) ∧
    1 ≤ n ∧ well_shaped n st ∧ batch_of (ncols rhs) st ∧
    ((n = 1 ∧ ko = None ∧ st = st0) ∨
     (∃ k, ko = Some k ∧ 1 ≤ k ∧ S k ≤ n ∧ unrolled cl st0 k = Ok st)).
Proof.
  unfold lanczos_iterate. cbv zeta. set (n := min max_iter (nrows rhs)).
  intros Hi. inv_bind Hi. rename a into st0.
  destruct (init_state_shape _ _ _ _ E) as (Hn & Hws & Hb).
  exists st0. split; [exact E|]. split; [exact Hi|]. split; [exact Hn|].
  split; [|split].
  - change st with (ko, st).2.
    eapply (lanczos_loop_inv (well_shaped n)); [|exact Hws|exact Hi].
    intros k s s' Hs Hbody. by apply (loop_body_shape n 0 _ _ _ _ Hbody).
  - change st with (ko, st).2.
    eapply (lanczos_loop_inv (batch_of (ncols rhs))); [|exact Hb|exact Hi].
    intros k s s' Hs Hbody. by apply (loop_body_shape 0 _ _ _ _ _ Hbody).
  - destruct (lanczos_loop_last _ _ _ _ _ Hi) as [(Hm & -> & ->)|(k & -> & Hk1 & Hk2 & Hu)].
    + left. split; [lia|done].
    + right. exists k. split; [reflexivity|]. split; [exact Hk1|]. split; [lia|exact Hu].
Qed.

Lemma lanczos_batch_Ok_inv (max_iter : nat) (cl : matrix → result matrix) (rhs : matrix)
    (r : list matrix * list matrix) :
  lanczos_batch max_iter cl rhs = Ok r →
  let n := min max_iter (nrows rhs) in
  ∃ k st0 st,
    init_state n cl rhs = Ok st0 ∧
    lanczos_loop cl (seq 1 (n - 1)) None st0 = Ok (Some k, st) ∧
    lanczos_iterate max_iter cl rhs = Ok (Some k, st) ∧
    assemble n k st = Ok r ∧ 1 ≤ k ∧ S k ≤ n ∧ well_shaped n st ∧
    batch_of (ncols rhs) st ∧ unrolled cl st0 k = Ok st.
Proof.
  unfold lanczos_batch. cbv zeta. intros Hr. inv_bind Hr. destruct a as [ko st].
  cbn [fst snd] in Hr.
  destruct (lanczos_iterate_inv _ _ _ _ _ E) as (st0 & Hi & Hl & Hn & Hws & Hb & Hcase).
  destruct Hcase as [(_ & -> & _)|(k & -> & Hk1 & Hk2 & Hu)]; [discriminate|].
  by exists k, st0, st.
Qed.

Lemma mapM_Ok_Forall2 {A B} (f : A → result B) (l : list A) (ys : list B) :
  mapM f l = Ok ys → Forall2 (λ x y, f x = Ok y) l ys.
Proof.
  revert ys. induction l as [|x l IH]; intros ys; cbn [mapM].
  - intros [= <-]. constructor.
  - destruct (f x) as [y|] eqn:Ef; cbn [bind]; [|discriminate].
    destruct (mapM f l) as [ys'|]; cbn [bind]; [|discriminate].
    intros [= <-]. constructor; [exact Ef | by apply IH].
Qed.

(** *** Matrices given entry by entry *)

Lemma length_tabulate2 (r c : nat) (f : nat → nat → R) : length (tabulate2 r c f) = r.
Proof. unfold tabulate2. by rewrite length_map, length_seq. Qed.

Lemma tabulate2_rows (r c : nat) (f : nat → nat → R) :
  Forall (λ row, length row = c) (tabulate2 r c f).
Proof.
  unfold tabulate2. apply Forall_forall. intros row Hrow.
  apply list_elem_of_In, in_map_iff in Hrow as (i & <- & _).
  by rewrite length_map, length_seq.
Qed.

Lemma entry_tabulate2 (r c : nat) (f : nat → nat → R) (i j : nat) :
  i < r → j < c → entry (tabulate2 r c f) i j = f i j.
Proof.
  intros Hi Hj. unfold entry, tabulate2.
  erewrite (nth_lookup_Some _ i [] (map (f i) (seq 0 c))).
  - apply nth_lookup_Some. by rewrite lookup_map, lookup_seq_lt.
  - by rewrite lookup_map, lookup_seq_lt.
Qed.

Lemma tabulate2_ext (r c : nat) (f g : nat → nat → R) :
  (∀ i j, i < r → j < c → f i j = g i j) → tabulate2 r c f = tabulate2 r c g.
Proof.
  intros Hfg. unfold tabulate2. apply map_ext_in. intros i Hi.
  apply map_ext_in. intros j Hj. apply in_seq in Hi, Hj. apply Hfg; lia.
Qed.

Lemma length_tabulate (n : nat) (f : nat → nat → R) : length (tabulate n f) = n.
Proof. apply length_tabulate2. Qed.

Lemma tabulate_rows (n : nat) (f : nat → nat → R) :
  Forall (λ row, length row = n) (tabulate n f).
Proof. apply tabulate2_rows. Qed.

Lemma entry_tabulate (n : nat) (f : nat → nat → R) (i j : nat) :
  i < n → j < n → entry (tabulate n f) i j = f i j.
Proof. apply entry_tabulate2. Qed.

Lemma tabulate_ext (n : nat) (f g : nat → nat → R) :
  (∀ i j, i < n → j < n → f i j = g i j) → tabulate n f = tabulate n g.
Proof. apply tabulate2_ext. Qed.

Lemma zip_with_map_same {A B C D} (f : B → C → D) (g : A → B) (h : A → C) (l : list A) :
  zip_with f (map g l) (map h l) = map (λ x, f (g x) (h x)) l.
Proof. induction l as [|x l IH]; [reflexivity|]. cbn. by rewrite IH. Qed.

Lemma madd_tabulate (n : nat) (f g : nat → nat → R) :
  madd (tabulate n f) (tabulate n g) = tabulate n (λ i j, sadd (f i j) (g i j)).
Proof.
  unfold madd, tabulate, tabulate2. rewrite zip_with_map_same.
  apply map_ext. intros i. apply zip_with_map_same.
Qed.

(** The three diagonals are added as full matrices. *)
Lemma tridiag_tabulate (a b : vec) :
  length a = S (length b) →
  tridiag a b =
  tabulate (length a)
    (λ i i', sadd (sadd (if i =? i' then nth i a szero else szero)
                        (if i' =? S i then nth i b szero else szero))
                  (if i =? S i' then nth i' b szero else szero)).
Proof.
  intros Hlen. unfold tridiag, diag, diag_up, diag_down.
  by rewrite <- Hlen, !madd_tabulate.
Qed.

Lemma tridiag_entries (a b : vec) :
  zero_laws → length a = S (length b) →
  tridiag a b =
  tabulate (length a)
    (λ i i', if i =? i' then sadd (nth i a szero) szero
             else if i' =? S i then sadd (nth i b szero) szero
             else if i =? S i' then sadd (nth i' b szero) szero else szero).
Proof.
  intros (Hc & Hi & H0) Hlen. rewrite tridiag_tabulate by exact Hlen.
  apply tabulate_ext. intros i j _ _.
  destruct (i =? j) eqn:E1.
  - apply Nat.eqb_eq in E1 as ->.
    replace (j =? S j) with false by (symmetry; apply Nat.eqb_neq; lia).
    apply Hi.
  - destruct (j =? S i) eqn:E2.
    + apply Nat.eqb_eq in E2 as ->.
      replace (i =? S (S i)) with false by (symmetry; apply Nat.eqb_neq; lia).
      by rewrite Hc, Hi.
    + destruct (i =? S j); rewrite H0; [apply Hc | exact H0].
Qed.

End ShapeFacts.

Section BatchFacts.
Context {R : Type} `{Scalar R}.
#[local] Abbreviation vec := (@vec R).
#[local] Abbreviation matrix := (@matrix R).
#[local] Abbreviation loop_state := (@loop_state R).

Lemma entry_lookup (A : list vec) (j i : nat) (row : vec) :
  A !! j = Some row → entry A j i = nth i row szero.
Proof. intros Hj. unfold entry. by rewrite (nth_lookup_Some _ _ _ _ Hj). Qed.

Lemma nth_take (k i : nat) (l : vec) : i < k → nth i (take k l) szero = nth i l szero.
Proof. intros Hi. by rewrite !nth_lookup, lookup_take_lt. Qed.

Lemma nth_drop_take (k i : nat) (l : vec) :
  S i < k → nth i (drop 1 (take k l)) szero = nth (S i) l szero.
Proof. intros Hi. by rewrite !nth_lookup, lookup_drop, lookup_take_lt. Qed.

Lemma entry_outside (T : matrix) (k i i' : nat) :
  length T = k → Forall (λ row, length row = k) T → k ≤ i ∨ k ≤ i' →
  entry T i i' = szero.
Proof.
  intros HlT HrT Hout. unfold entry.
  destruct (T !! i) as [row|] eqn:Erow.
  - rewrite (nth_lookup_Some _ _ _ _ Erow).
    pose proof (Forall_lookup_1 _ _ _ _ HrT Erow) as Hlen. cbn beta in Hlen.
    apply lookup_lt_Some in Erow. apply nth_overflow. lia.
  - apply lookup_ge_None in Erow. rewrite (nth_overflow T) by exact Erow.
    by destruct i'.
Qed.

Lemma tridiag_shape (a b : vec) :
  length a = S (length b) →
  length (tridiag a b) = length a ∧
  Forall (λ row, length row = length a) (tridiag a b).
Proof.
  intros Hlen. rewrite tridiag_tabulate by exact Hlen.
  split; [apply length_tabulate | apply tabulate_rows].
Qed.

Lemma assemble_Qs (n k : nat) (st : loop_state) (Qs Ts : list matrix) :
  assemble n k st = Ok (Qs, Ts) → Qs = Q_prefix k (st_Q st).
Proof.
  unfold assemble. cbv zeta. destruct (k =? 1); [by intros [= <- _]|].
  intros Hasm. inv_bind Hasm. by injection Hasm as <- _.
Qed.

Lemma assemble_length (n k : nat) (st : loop_state) (Qs Ts : list matrix) (p : nat) :
  assemble n k st = Ok (Qs, Ts) → batch_of p st → length Qs = p ∧ length Ts = p.
Proof.
  unfold assemble, Q_prefix. cbv zeta. intros Hasm (Ha & Hb & HQ). destruct (k =? 1).
  - injection Hasm as <- <-. by rewrite !length_map.
  - inv_bind Hasm. injection Hasm as <- <-.
    apply mapM_Ok_Forall2, Forall2_length in E. rewrite <- E, length_map.
    split; [exact HQ|]. rewrite length_zip_with, !length_map. unalias. lia.
Qed.

(** The matrix that [assemble] stores for probe [j]. *)
Lemma assemble_T (n k : nat) (st : loop_state) (Qs Ts : list matrix) (j : nat) (T : matrix) :
  assemble n k st = Ok (Qs, Ts) → Ts !! j = Some T →
  ∃ aj, st_alpha st !! j = Some aj ∧
    ((k = 1 ∧ T = [take k aj]) ∨
     (k ≠ 1 ∧ ∃ bj, st_beta st !! j = Some bj ∧
        T = tridiag (take k aj) (drop 1 (take k bj)) ∧
        assign_slice (n - 1) T = Ok T)).
Proof.
  unfold assemble. cbv zeta. intros Hasm HT. destruct (k =? 1) eqn:Ek.
  - apply Nat.eqb_eq in Ek. injection Hasm as HQs HTs; subst Ts.
    rewrite lookup_map in HT. apply fmap_Some in HT as (aj & Haj & ->).
    exists aj. split; [exact Haj|]. left. split; [exact Ek | reflexivity].
  - apply Nat.eqb_neq in Ek.
    destruct (mapM _ _) as [Ts0|] eqn:Em; cbn [bind] in Hasm; [|discriminate].
    injection Hasm as HQs HTs; subst Ts.
    apply mapM_Ok_Forall2 in Em.
    destruct (Forall2_lookup_r _ _ _ _ _ Em HT) as ([a b] & Hab & Hf).
    apply lookup_zip_Some in Hab as [Ha Hb]. rewrite lookup_map in Ha, Hb.
    apply fmap_Some in Ha as (aj & Haj & ->). apply fmap_Some in Hb as (bj & Hbj & ->).
    cbn [fst snd] in Hf.
    exists aj. split; [exact Haj|]. right. split; [exact Ek|].
    exists bj. split; [exact Hbj|].
    assert (T = tridiag (take k aj) (drop 1 (take k bj))) as ->.
    { unfold assign_slice in Hf. destruct (_ && _); [by injection Hf|discriminate]. }
    split; [reflexivity | exact Hf].
Qed.

Lemma lanczos_batch_length (max_iter : nat) (cl : matrix → result matrix)
    (rhs : matrix) (Qs Ts : list matrix) :
  lanczos_batch max_iter cl rhs = Ok (Qs, Ts) →
  length Qs = ncols rhs ∧ length Ts = ncols rhs.
Proof.
  intros Hr.
  destruct (lanczos_batch_Ok_inv _ _ _ _ Hr)
    as (k & st0 & st & _ & _ & _ & Hasm & _ & _ & _ & Hb & _).
  eapply assemble_length; eassumption.
Qed.

(** C7: a returning call gives one matrix per probe.  After a single round
    it is the 1 x 1 matrix [alpha_0]; otherwise it is [k x k], symmetric
    and tridiagonal, with the probe's [alpha] on the diagonal and its
    [beta], from [beta[1]] on, on both off-diagonals.  The source adds the
    three diagonals as full matrices, so a coefficient [x] arrives as
    [x + 0], which in binary64 is [x] but for the sign of a zero; the
    zero laws used are those of binary64. *)
Theorem lanczos_batch_tridiagonal (max_iter : nat) (cl : matrix → result matrix)
    (rhs : matrix) (Qs Ts : list matrix) :
  zero_laws →
  lanczos_batch max_iter cl rhs = Ok (Qs, Ts) →
  ∃ k st,
    lanczos_iterate max_iter cl rhs = Ok (Some k, st) ∧
    length Ts = ncols rhs ∧
    ∀ j, j < ncols rhs →
      ∃ T, Ts !! j = Some T ∧
        length T = k ∧ Forall (λ row, length row = k) T ∧
        (k = 1 → T = [[entry (st_alpha st) j 0]]) ∧
        (k ≠ 1 → ∀ i i', i < k → i' < k →
           entry T i i' =
           if i =? i' then sadd (entry (st_alpha st) j i) szero
           else if i' =? S i then sadd (entry (st_beta st) j i') szero
           else if i =? S i' then sadd (entry (st_beta st) j i) szero
           else szero) ∧
        (∀ i i', entry T i i' = entry T i' i).
Proof.
  intros Hz Hr.
  destruct (lanczos_batch_length _ _ _ _ _ Hr) as [_ HlTs].
  destruct (lanczos_batch_Ok_inv _ _ _ _ Hr)
    as (k & st0 & st & _ & _ & Hit & Hasm & Hk1 & Hkn & Hws & _ & _).
  exists k, st. split; [exact Hit|]. split; [exact HlTs|]. intros j Hj.
  destruct (lookup_lt_is_Some_2 Ts j) as [T HT]; [lia|].
  exists T. split; [exact HT|].
  destruct Hws as (Hwa & Hwb & _).
  destruct (assemble_T _ _ _ _ _ _ _ Hasm HT) as (aj & Haj & Hcase).
  pose proof (Forall_lookup_1 _ _ _ _ Hwa Haj) as Hla. cbn beta in Hla.
  destruct Hcase as [[-> ->]|(Hk & bj & Hbj & -> & _)].
  - destruct aj as [|x aj]; [cbn in Hla; lia|]. cbn [take].
    rewrite (entry_lookup _ _ _ _ Haj). cbn [nth].
    split; [reflexivity|]. split; [by repeat constructor|]. split; [reflexivity|].
    split; [intros Hne; lia|].
    intros i i'. destruct (decide (i = 0)) as [->|Hi]; [destruct (decide (i' = 0)) as [->|Hi']|];
      [reflexivity|..]; rewrite !(entry_outside _ 1) by (repeat constructor || lia); reflexivity.
  - pose proof (Forall_lookup_1 _ _ _ _ Hwb Hbj) as Hlb. cbn beta in Hlb.
    assert (Hta : length (take k aj) = k) by (rewrite length_take; lia).
    assert (Htb : length (drop 1 (take k bj)) = k - 1)
      by (rewrite length_drop, length_take; lia).
    rewrite tridiag_entries by (try exact Hz; lia). rewrite Hta.
    assert (HeT : ∀ i i', i < k → i' < k →
              entry (tabulate k
                (λ i i', if i =? i' then sadd (nth i (take k aj) szero) szero
                         else if i' =? S i
                              then sadd (nth i (drop 1 (take k bj)) szero) szero
                              else if i =? S i'
                                   then sadd (nth i' (drop 1 (take k bj)) szero) szero
                                   else szero)) i i' =
              if i =? i' then sadd (entry (st_alpha st) j i) szero
              else if i' =? S i then sadd (entry (st_beta st) j i') szero
              else if i =? S i' then sadd (entry (st_beta st) j i) szero
              else szero).
    { intros i i' Hi Hi'. rewrite entry_tabulate by assumption.
      rewrite (entry_lookup _ _ _ _ Haj).
      destruct (i =? i') eqn:E1; [by rewrite nth_take|].
      destruct (i' =? S i) eqn:E2.
      + apply Nat.eqb_eq in E2 as ->. rewrite (entry_lookup _ _ _ _ Hbj).
        by rewrite nth_drop_take.
      + destruct (i =? S i') eqn:E3; [|reflexivity].
        apply Nat.eqb_eq in E3 as ->. rewrite (entry_lookup _ _ _ _ Hbj).
        by rewrite nth_drop_take. }
    split; [apply length_tabulate|]. split; [apply tabulate_rows|].
    split; [intros; lia|]. split; [intros _; exact HeT|].
    intros i i'.
    destruct (decide (i < k)) as [Hi|Hi]; [destruct (decide (i' < k)) as [Hi'|Hi']|].
    + rewrite !HeT by assumption. rewrite (Nat.eqb_sym i' i).
      destruct (i =? i') eqn:E1; [by apply Nat.eqb_eq in E1 as ->|].
      destruct (i' =? S i) eqn:E2.
      * apply Nat.eqb_eq in E2 as ->.
        replace (i =? S (S i)) with false by (symmetry; apply Nat.eqb_neq; lia).
        reflexivity.
      * destruct (i =? S i'); reflexivity.
    + rewrite !(entry_outside _ k)
        by (first [apply length_tabulate | apply tabulate_rows | lia]). reflexivity.
    + rewrite !(entry_outside _ k)
        by (first [apply length_tabulate | apply tabulate_rows | lia]). reflexivity.
Qed.

(** C9: a returning call made [k] rounds after the initial step, with
    [k + 1 <= min(max_iter, dim)]; the returned basis has [k] columns per
    probe and every returned matrix is [k x k]. *)
Theorem lanczos_batch_depth_bound (max_iter : nat) (cl : matrix → result matrix)
    (rhs : matrix) (Qs Ts : list matrix) :
  lanczos_batch max_iter cl rhs = Ok (Qs, Ts) →
  ∃ k st0 st,
    init_state (min max_iter (nrows rhs)) cl rhs = Ok st0 ∧
    lanczos_loop cl (seq 1 (min max_iter (nrows rhs) - 1)) None st0 = Ok (Some k, st) ∧
    S k ≤ min max_iter (nrows rhs) ∧
    (∀ Qj row, Qj ∈ Qs → row ∈ Qj → length row = k) ∧
    (∀ T, T ∈ Ts → length T = k ∧ ∀ row, row ∈ T → length row = k).
Proof.
  intros Hr.
  destruct (lanczos_batch_Ok_inv _ _ _ _ Hr)
    as (k & st0 & st & Hi & Hl & _ & Hasm & Hk1 & Hkn & Hws & _ & _).
  exists k, st0, st. split; [exact Hi|]. split; [exact Hl|]. split; [exact Hkn|].
  destruct Hws as (Hwa & Hwb & HwQ). split.
  - rewrite (assemble_Qs _ _ _ _ _ Hasm).
    intros Qj row HQj Hrow. unfold Q_prefix in HQj.
    apply list_elem_of_In, in_map_iff in HQj as (Qj0 & <- & HQj0).
    apply list_elem_of_In, in_map_iff in Hrow as (row0 & <- & Hrow0).
    apply list_elem_of_In in HQj0, Hrow0.
    pose proof (proj1 (Forall_forall _ _) HwQ _ HQj0) as HQrows.
    pose proof (proj1 (Forall_forall _ _) HQrows _ Hrow0) as Hlen. cbn beta in Hlen.
    rewrite length_take. lia.
  - intros T HT. apply list_elem_of_lookup_1 in HT as [j HT].
    destruct (assemble_T _ _ _ _ _ _ _ Hasm HT) as (aj & Haj & Hcase).
    pose proof (Forall_lookup_1 _ _ _ _ Hwa Haj) as Hla. cbn beta in Hla.
    destruct Hcase as [[-> ->]|(Hk & bj & Hbj & -> & Hslice)].
    + split; [reflexivity|]. intros row Hrow. apply list_elem_of_singleton in Hrow as ->.
      rewrite length_take. lia.
    + pose proof (Forall_lookup_1 _ _ _ _ Hwb Hbj) as Hlb. cbn beta in Hlb.
      assert (Hta : length (take k aj) = k) by (rewrite length_take; lia).
      assert (Htb : length (take k aj) = S (length (drop 1 (take k bj))))
        by (rewrite length_drop, !length_take; lia).
      destruct (tridiag_shape _ _ Htb) as [HlT HrT]. rewrite Hta in HlT, HrT.
      split; [exact HlT|].
      intros row Hrow. eapply (proj1 (Forall_forall _ _) HrT), Hrow.
Qed.

End BatchFacts.

Section EstimatorFacts.
Context {R : Type} `{Scalar R}.
#[local] Abbreviation vec := (@vec R).
#[local] Abbreviation matrix := (@matrix R).
#[local] Abbreviation operator := (@operator R).
Variable symeig : matrix → vec * matrix.

(** *** The probe tensor *)

Lemma nrows_tabulate2 (r c : nat) (f : nat → nat → R) : nrows (tabulate2 r c f) = r.
Proof. apply length_tabulate2. Qed.

Lemma ncols_tabulate2 (r c : nat) (f : nat → nat → R) :
  1 ≤ r → ncols (tabulate2 r c f) = c.
Proof.
  intros Hr. destruct r as [|r]; [lia|]. unfold tabulate2. cbn [seq map ncols].
  by rewrite length_map, length_seq.
Qed.

Lemma bsize_same (a : nat) : bsize a a = a.
Proof. unfold bsize. by destruct (a =? 1). Qed.

Lemma fits_same (a : nat) : fits a a = true.
Proof. unfold fits. by rewrite Nat.eqb_refl. Qed.

(** Lines 121 and 122 never raise: the probe tensor is [(n, p)]. *)
Lemma probe_batch_shape (rng : nat → bool) (pos n p : nat) :
  1 ≤ n →
  ∃ V, probe_batch rng pos n p = Ok V ∧ nrows V = n ∧ ncols V = p ∧ has_shape n p V.
Proof.
  intros Hn. unfold probe_batch, expand. cbv zeta.
  set (V := draw_probes rng pos n p).
  assert (HrV : nrows V = n) by apply nrows_tabulate2.
  assert (HcV : ncols V = p) by (by apply ncols_tabulate2).
  assert (Hcn : ncols [col_norms V] = p).
  { cbn [ncols]. unfold col_norms, transpose. rewrite length_map, length_tabulate2. exact HcV. }
  change (nrows [col_norms V]) with 1. rewrite Hcn, !Nat.eqb_refl, orb_true_r.
  cbn [orb andb bind].
  unfold pointwise. rewrite HrV, HcV, nrows_tabulate2, ncols_tabulate2, !fits_same by exact Hn.
  cbn [andb]. eexists. split; [reflexivity|]. rewrite !bsize_same.
  split; [apply nrows_tabulate2|]. split; [by apply ncols_tabulate2|].
  split; [apply length_tabulate2 | apply tabulate2_rows].
Qed.

(** *** The two loops of [evaluate] *)

Lemma quad_term_Ok (n p : nat) (func : vec → vec) (fY : vec * matrix) :
  length (func (map (λ x, sadd x lit_1_1e_4) fY.1)) = length (nth 0 fY.2 []) →
  quad_term n p func fY =
  Ok (smul (sdiv (sofnat n) (sofnat p))
        (dot (map (λ y, smul y y) (nth 0 fY.2 []))
             (func (map (λ x, sadd x lit_1_1e_4) fY.1)))).
Proof.
  intros Hlen. unfold quad_term, tdot. rewrite length_map, Hlen, Nat.eqb_refl. reflexivity.
Qed.

Lemma quad_term_Err (n p : nat) (func : vec → vec) (fY : vec * matrix) :
  length (func (map (λ x, sadd x lit_1_1e_4) fY.1)) ≠ length (nth 0 fY.2 []) →
  quad_term n p func fY = Err SizeMismatch.
Proof.
  intros Hlen. unfold quad_term, tdot. rewrite length_map.
  replace (_ =? _) with false; [reflexivity|]. symmetry. apply Nat.eqb_neq. lia.
Qed.

Lemma accumulate_zip (n p : nat) (funcs : list (vec → vec)) (fY : vec * matrix)
    (results : list R) (t : (vec → vec) → R) :
  length results = length funcs →
  (∀ func, func ∈ funcs → quad_term n p func fY = Ok (t func)) →
  accumulate n p (zip (seq 0 (length funcs)) funcs) fY results =
  Ok (zip_with (λ r func, sadd r (t func)) results funcs).
Proof.
  enough (Hgen : ∀ (fs : list (vec → vec)) (pre mid : list R),
    length mid = length fs →
    (∀ func, func ∈ fs → quad_term n p func fY = Ok (t func)) →
    accumulate n p (zip (seq (length pre) (length fs)) fs) fY (pre ++ mid)
    = Ok (pre ++ zip_with (λ r func, sadd r (t func)) mid fs)).
  { intros Hlen Hq. exact (Hgen funcs [] results Hlen Hq). }
  induction fs as [|f fs IH]; intros pre mid Hlen Hq.
  - destruct mid; [reflexivity|discriminate].
  - destruct mid as [|r mid]; [discriminate|].
    cbn [length seq zip zip_with accumulate].
    rewrite (Hq f) by (by left). cbn [bind]. rewrite nth_middle.
    replace (<[length pre:=sadd r (t f)]> (pre ++ r :: mid))
      with ((pre ++ [sadd r (t f)]) ++ mid).
    + replace (S (length pre)) with (length (pre ++ [sadd r (t f)]))
        by (rewrite length_app; cbn; lia).
      rewrite IH; [by rewrite <- app_assoc | cbn in Hlen; lia |].
      intros func Hfunc. apply Hq. by right.
    + rewrite <- app_assoc. cbn [app].
      rewrite insert_app_r_alt by lia. by rewrite Nat.sub_diag.
Qed.

Lemma probe_loop_fold (n p : nat) (funcs : list (vec → vec)) (Ts : list matrix)
    (results : list R) (t : (vec → vec) → matrix → R) :
  length results = length funcs →
  (∀ func T, func ∈ funcs → T ∈ Ts →
     quad_term n p func (quad_nodes symeig T) = Ok (t func T)) →
  probe_loop symeig n p funcs Ts (seq 0 (length Ts)) results =
  Ok (fold_left (λ res T, zip_with (λ r func, sadd r (t func T)) res funcs) Ts results).
Proof.
  enough (Hgen : ∀ (mid pre : list matrix) (res : list R),
    length res = length funcs →
    (∀ func T, func ∈ funcs → T ∈ mid →
       quad_term n p func (quad_nodes symeig T) = Ok (t func T)) →
    probe_loop symeig n p funcs (pre ++ mid) (seq (length pre) (length mid)) res =
    Ok (fold_left (λ res T, zip_with (λ r func, sadd r (t func T)) res funcs) mid res)).
  { intros Hlen Hq. exact (Hgen Ts [] results Hlen Hq). }
  induction mid as [|T mid IH]; intros pre res Hlen Hq; [reflexivity|].
  cbn [length seq probe_loop fold_left].
  rewrite list_lookup_middle by reflexivity.
  rewrite (accumulate_zip n p funcs (quad_nodes symeig T) res (λ func, t func T));
    [|exact Hlen|intros func Hfunc; apply Hq; [exact Hfunc | by left]].
  cbn [bind].
  replace (pre ++ T :: mid) with ((pre ++ [T]) ++ mid) by (by rewrite <- app_assoc).
  replace (S (length pre)) with (length (pre ++ [T])) by (rewrite length_app; cbn; lia).
  apply IH.
  - rewrite length_zip_with. lia.
  - intros func T' Hfunc HT'. apply Hq; [exact Hfunc | by right].
Qed.

Lemma zip_with_again {A B} (g h : A → B → A) (l : list A) (k : list B) :
  zip_with h (zip_with g l k) k = zip_with (λ x y, h (g x y) y) l k.
Proof.
  revert k. induction l as [|x l IH]; intros [|y k]; cbn; [reflexivity..|]. by rewrite IH.
Qed.

Lemma fold_zip_with {A B C} (g : A → B → C → A) (Ts : list C) (funcs : list B) :
  ∀ res : list A, length res ≤ length funcs →
    fold_left (λ res T, zip_with (λ r f, g r f T) res funcs) Ts res =
    zip_with (λ r f, fold_left (λ acc T, g acc f T) Ts r) res funcs.
Proof.
  induction Ts as [|T Ts IH]; intros res Hlen; cbn [fold_left].
  - revert funcs Hlen. induction res as [|r res IHr]; intros [|f funcs] Hlen; cbn in *;
      [reflexivity..|lia|]. rewrite <- IHr by lia. reflexivity.
  - rewrite IH by (rewrite length_zip_with; lia). apply zip_with_again.
Qed.

Lemma fold_from_zero (funcs : list (vec → vec)) (Ts : list matrix)
    (t : (vec → vec) → matrix → R) :
  fold_left (λ res T, zip_with (λ r func, sadd r (t func T)) res funcs) Ts
            (replicate (length funcs) szero) =
  map (λ func, fold_left (λ acc T, sadd acc (t func T)) Ts szero) funcs.
Proof.
  rewrite (fold_zip_with (λ r func T, sadd r (t func T))) by (by rewrite length_replicate).
  induction funcs as [|f funcs IH]; [reflexivity|]. cbn. by rewrite IH.
Qed.

Lemma dot_elementwise (g : R → R) (Y0 f : vec) :
  dot (map (λ y, smul y y) Y0) (map g (map (λ x, sadd x lit_1_1e_4) f)) =
  ssum (zip_with (λ y x, smul (smul y y) (g (sadd x lit_1_1e_4))) Y0 f).
Proof.
  unfold dot. f_equal. revert f.
  induction Y0 as [|y Y0 IH]; intros [|x f]; cbn; [reflexivity..|]. by rewrite IH.
Qed.

Lemma quad_nodes_unfold (T : matrix) :
  quad_nodes symeig T =
  if sltb (py_min (symeig T).1) (sopp lit_1e_4)
  then symeig (submatrix (max (binary_search_symeig symeig T) 1) T)
  else symeig T.
Proof. unfold quad_nodes. by destruct (symeig T) as [f Y]. Qed.

Lemma evaluate_run (max_iter p : nat) (op : operator) (n : nat)
    (funcs : list (vec → vec)) (rng : nat → bool) (pos : nat) :
  takes_shortcut op = false →
  evaluate symeig max_iter p op n funcs rng pos =
  (try! V := probe_batch rng pos n p in
   try! QT := lanczos_batch max_iter (op_closure op) V in
   try! res := probe_loop symeig n p funcs QT.2 (seq 0 p)
                          (replicate (length funcs) szero) in
   Ok (Estimates res),
   pos + n * p).
Proof.
  intros Hs. unfold evaluate. destruct op as [lhs|f]; cbn [takes_shortcut op_closure] in *.
  - by rewrite Hs.
  - reflexivity.
Qed.

(** The reduction is handed one probe per column and returns one matrix
    per probe. *)
Lemma probe_count (max_iter p n : nat) (cl : matrix → result matrix)
    (rng : nat → bool) (pos : nat) (V : matrix) (Qs Ts : list matrix) :
  probe_batch rng pos n p = Ok V →
  lanczos_batch max_iter cl V = Ok (Qs, Ts) →
  length Ts = p.
Proof.
  intros HV Hl.
  destruct (lanczos_batch_length _ _ _ _ _ Hl) as [_ HTs].
  destruct (lanczos_batch_Ok_inv _ _ _ _ Hl) as (k & _ & _ & _ & _ & _ & _ & Hk1 & Hkn & _).
  assert (Hn : 1 ≤ n).
  { destruct n as [|n']; [|lia]. exfalso.
    unfold probe_batch, expand, draw_probes in HV. cbn in HV.
    destruct p; cbn in HV; [|discriminate].
    injection HV as <-. cbn in Hkn. lia. }
  destruct (probe_batch_shape rng pos n p Hn) as (V' & HV' & _ & Hc & _).
  rewrite HV in HV'. injection HV' as <-. by rewrite HTs.
Qed.

(** C1: when the reduction returns, and every requested function returns as
    many values as it is given nodes, [evaluate] returns, for each function,
    the sum over the probes, in their order, of
    [(n / p) * dot(Y[0, :]^2, func(f + 1.1e-4))].  Here [f] and [Y] are the
    eigenvalues and eigenvectors that [symeig] gives for the probe's matrix
    [T], or, when the least of these eigenvalues is below [-1e-4], those it
    gives for the leading block of [T] of size
    [max(binary_search_symeig(T), 1)].  There is one matrix per probe.  For
    a function applied entry by entry the inner product is the sum over the
    nodes of [Y[0, node]^2 * g(f[node] + 1.1e-4)]. *)
Theorem evaluate_estimates (max_iter p : nat) (op : operator) (n : nat)
    (funcs : list (vec → vec)) (rng : nat → bool) (pos : nat)
    (V : matrix) (Qs Ts : list matrix) :
  takes_shortcut op = false →
  probe_batch rng pos n p = Ok V →
  lanczos_batch max_iter (op_closure op) V = Ok (Qs, Ts) →
  let nodes := λ T : matrix,
    if sltb (py_min (symeig T).1) (sopp lit_1e_4)
    then symeig (submatrix (max (binary_search_symeig symeig T) 1) T)
    else symeig T in
  (∀ func T, func ∈ funcs → T ∈ Ts →
     length (func (map (λ x, sadd x lit_1_1e_4) (nodes T).1))
     = length (nth 0 (nodes T).2 [])) →
  length Ts = p ∧
  evaluate symeig max_iter p op n funcs rng pos =
    (Ok (Estimates
           (map (λ func,
                   fold_left
                     (λ acc T,
                        sadd acc
                          (smul (sdiv (sofnat n) (sofnat p))
                             (dot (map (λ y, smul y y) (nth 0 (nodes T).2 []))
                                  (func (map (λ x, sadd x lit_1_1e_4) (nodes T).1)))))
                     Ts szero)
                funcs)),
     pos + n * p) ∧
  ∀ (g : R → R) (Y0 f : vec),
    dot (map (λ y, smul y y) Y0) (map g (map (λ x, sadd x lit_1_1e_4) f)) =
    ssum (zip_with (λ y x, smul (smul y y) (g (sadd x lit_1_1e_4))) Y0 f).
Proof.
  intros Hs HV Hl nodes Hsize.
  pose proof (probe_count _ _ _ _ _ _ _ _ _ HV Hl) as HTs.
  split; [exact HTs|]. split; [|apply dot_elementwise].
  rewrite evaluate_run by exact Hs. rewrite HV. cbn [bind]. rewrite Hl. cbn [bind snd].
  replace (seq 0 p) with (seq 0 (length Ts)) by (by rewrite HTs).
  rewrite (probe_loop_fold n p funcs Ts _
             (λ func T, smul (sdiv (sofnat n) (sofnat p))
                          (dot (map (λ y, smul y y) (nth 0 (nodes T).2 []))
                               (func (map (λ x, sadd x lit_1_1e_4) (nodes T).1))))).
  - cbn [bind]. by rewrite fold_from_zero.
  - apply length_replicate.
  - intros func T Hfunc HT. rewrite quad_nodes_unfold. fold (nodes T).
    apply quad_term_Ok. by apply Hsize.
Qed.

(** C6: a tensor operator holding the single scalar [c] makes [evaluate]
    return [|c|] at once, whatever the functions, the dimension argument
    and the configured sizes; no random bit is read. *)
Theorem evaluate_scalar_shortcut (max_iter p : nat) (c : R) (n : nat)
    (funcs : list (vec → vec)) (rng : nat → bool) (pos : nat) :
  evaluate symeig max_iter p (TensorOp [[c]]) n funcs rng pos
  = (Ok (AbsValue (sabs c)), pos).
Proof. reflexivity. Qed.

Lemma lanczos_batch_one_iter (max_iter : nat) (cl : matrix → result matrix) (rhs : matrix) :
  min max_iter (nrows rhs) = 1 →
  (∃ e, lanczos_batch max_iter cl rhs = Err e) ∧
  (∀ st0, init_state 1 cl rhs = Ok st0 →
     lanczos_batch max_iter cl rhs = Err UnboundLocalError).
Proof.
  intros Hn. unfold lanczos_batch, lanczos_iterate. cbv zeta. rewrite Hn.
  cbn [Nat.sub seq]. destruct (init_state 1 cl rhs) as [st0|e]; cbn [bind lanczos_loop fst].
  - split; [by eexists | reflexivity].
  - split; [by eexists | discriminate].
Qed.

End EstimatorFacts.

Section SearchFacts.
Context {R : Type} `{Scalar R}.
#[local] Abbreviation vec := (@vec R).
#[local] Abbreviation matrix := (@matrix R).
Variable symeig : matrix → vec * matrix.

(** *** The search over leading blocks *)

Lemma mid_bounds (l r : nat) : 1 < r - l → l < (l + r) / 2 ∧ (l + r) / 2 < r.
Proof.
  intros Hlr. pose proof (Nat.div_mod_eq (l + r) 2) as Hd.
  pose proof (Nat.mod_upper_bound (l + r) 2). lia.
Qed.

Lemma bsearch_loop_bounds (T : matrix) (fuel : nat) :
  ∀ l r, l ≤ r →
    l ≤ bsearch_loop symeig fuel T l r ∧ bsearch_loop symeig fuel T l r ≤ r.
Proof.
  induction fuel as [|fuel IH]; intros l r Hlr; cbn [bsearch_loop]; [lia|].
  destruct (1 <? r - l) eqn:E; [|lia].
  apply Nat.ltb_lt in E. destruct (mid_bounds l r E) as [H1 H2].
  destruct (prefix_invalid symeig T ((l + r) / 2)).
  - destruct (IH l ((l + r) / 2 - 1)); lia.
  - destruct (IH ((l + r) / 2) r); lia.
Qed.

Lemma bsearch_loop_valid (T : matrix) (fuel : nat) :
  ∀ l r, l = 0 ∨ prefix_invalid symeig T l = false →
    bsearch_loop symeig fuel T l r = 0 ∨
    prefix_invalid symeig T (bsearch_loop symeig fuel T l r) = false.
Proof.
  induction fuel as [|fuel IH]; intros l r Hl; cbn [bsearch_loop]; [exact Hl|].
  destruct (1 <? r - l); [|exact Hl].
  destruct (prefix_invalid symeig T ((l + r) / 2)) eqn:E.
  - by apply IH.
  - apply IH. by right.
Qed.

Lemma bsearch_loop_monotone (T : matrix) (K : nat)
    (Hmono : ∀ mid, 1 ≤ mid → mid ≤ length T →
               (prefix_invalid symeig T mid = false ↔ mid ≤ K)) (fuel : nat) :
  ∀ l r, l ≤ K → K ≤ r → r ≤ length T → r - l ≤ fuel →
    K - 1 ≤ bsearch_loop symeig fuel T l r ∧ bsearch_loop symeig fuel T l r ≤ K.
Proof.
  induction fuel as [|fuel IH]; intros l r HlK HKr HrT Hfuel; cbn [bsearch_loop]; [lia|].
  destruct (1 <? r - l) eqn:E.
  - apply Nat.ltb_lt in E. destruct (mid_bounds l r E) as [H1 H2].
    destruct (prefix_invalid symeig T ((l + r) / 2)) eqn:Ei.
    + assert (¬ (l + r) / 2 ≤ K).
      { intros Hle. apply Hmono in Hle; [congruence|lia|lia]. }
      apply IH; lia.
    + apply Hmono in Ei; [|lia|lia]. apply IH; lia.
  - apply Nat.ltb_ge in E. lia.
Qed.

(** C5, as the code has it: when the fallback runs, the block that is
    decomposed again has size [max(binary_search_symeig(T), 1)], which is
    at least 1 and at most the size of [T], so it is not empty. *)
Theorem fallback_block_nonempty (T : matrix) :
  needs_fallback (symeig T).1 = true →
  quad_nodes symeig T
    = symeig (submatrix (max (binary_search_symeig symeig T) 1) T) ∧
  1 ≤ max (binary_search_symeig symeig T) 1 ∧
  max (binary_search_symeig symeig T) 1 ≤ max (length T) 1 ∧
  (T ≠ [] → submatrix (max (binary_search_symeig symeig T) 1) T ≠ []).
Proof.
  intros Hf. split; [|split; [lia|split]].
  - unfold quad_nodes. destruct (symeig T) as [f Y]. cbn [fst] in Hf.
    unfold needs_fallback in Hf. by rewrite Hf.
  - unfold binary_search_symeig.
    destruct (bsearch_loop_bounds T (length T) 0 (length T)); lia.
  - intros HT. destruct T as [|row T]; [done|].
    destruct (max _ 1) eqn:E; [lia|]. discriminate.
Qed.

End SearchFacts.

(** * Worked examples *)

(** binary64 has the zero laws. *)
Lemma float_zero_laws : @zero_laws float float_scalar.
Proof.
  unfold zero_laws. cbn [sadd szero float_scalar].
  split; [|split]; [intros x..|reflexivity]; apply Prim2SF_inj;
    rewrite !FloatAxioms.add_spec; change (Prim2SF 0) with (S754_zero false);
    destruct (Prim2SF x) as [[|]|[|]| |s m e]; reflexivity.
Qed.

Lemma evaluate_estimates_witness :
  ∃ V Qs Ts,
    takes_shortcut (TensorOp op_circ) = false ∧
    probe_batch bits_3x3 0 3 3 = Ok V ∧
    lanczos_batch 15 (op_closure (TensorOp op_circ)) V = Ok (Qs, Ts) ∧
    map length Ts = [2; 2; 2] ∧
    let funcs : list (list float → list float) :=
      [map (λ x, x); map (λ x, sdiv (sofnat 1) x)] in
    let nodes := λ T : list (list float),
      if sltb (py_min (symeig_small T).1) (sopp lit_1e_4)
      then symeig_small (submatrix (max (binary_search_symeig symeig_small T) 1) T)
      else symeig_small T in
    (length Ts = 3 ∧
     evaluate symeig_small 15 3 (TensorOp op_circ) 3 funcs bits_3x3 0 =
       (Ok (Estimates
              (map (λ func,
                      fold_left
                        (λ acc T,
                           sadd acc
                             (smul (sdiv (sofnat 3) (sofnat 3))
                                (dot (map (λ y, smul y y) (nth 0 (nodes T).2 []))
                                     (func (map (λ x, sadd x lit_1_1e_4) (nodes T).1)))))
                        Ts szero)
                   funcs)),
        0 + 3 * 3) ∧
     ∀ (g : float → float) (Y0 f : list float),
       dot (map (λ y, smul y y) Y0) (map g (map (λ x, sadd x lit_1_1e_4) f)) =
       ssum (zip_with (λ y x, smul (smul y y) (g (sadd x lit_1_1e_4))) Y0 f)) ∧
    evaluate symeig_small 15 3 (TensorOp op_circ) 3 funcs bits_3x3 0 =
      (Ok (Estimates [6.6669966666666687; 2.2587177260570037]%float), 9).
Proof.
  eexists _, _, _. split; [reflexivity|]. split; [vm_compute; reflexivity|].
  split; [vm_compute; reflexivity|]. split; [reflexivity|].
  intros funcs nodes. split; [|vm_compute; reflexivity].
  eapply (evaluate_estimates symeig_small 15 3 (TensorOp op_circ) 3 funcs bits_3x3 0).
  - reflexivity.
  - vm_compute; reflexivity.
  - vm_compute; reflexivity.
  - intros func T Hfunc HT.
    apply list_elem_of_In in Hfunc, HT. cbn [In] in Hfunc, HT.
    destruct Hfunc as [<-|[<-|[]]]; destruct HT as [<-|[<-|[<-|[]]]];
      vm_compute; reflexivity.
Defined.

Lemma lanczos_loop_early_exit_witness :
  ∃ st0 st,
    init_state 4 (default_matmul_closure op_two_eigs) ones_4x4 = Ok st0 ∧
    lanczos_loop (default_matmul_closure op_two_eigs) (seq 1 3) None st0 = Ok (Some 2, st) ∧
    1 ≤ 2 ∧ 2 < 3 ∧
    (lanczos_loop (default_matmul_closure op_two_eigs) (seq 1 3) None st0 = Ok (Some 2, st) ↔
       unrolled (default_matmul_closure op_two_eigs) st0 2 = Ok st ∧
       batch_breakdown 2 st ∧
       ∀ k', 1 ≤ k' → k' < 2 →
         ∃ st', unrolled (default_matmul_closure op_two_eigs) st0 k' = Ok st' ∧
                ¬ batch_breakdown k' st').
Proof.
  eexists _, _. split; [vm_compute; reflexivity|]. split; [vm_compute; reflexivity|].
  split; [lia|]. split; [lia|].
  apply (lanczos_loop_early_exit (default_matmul_closure op_two_eigs) 3); lia.
Defined.

(** C3: on the 6 x 6 matrix [T_defect] the leading blocks of size 1 and 2
    pass the test and those of size 3 to 6 fail it, so the largest valid
    size is 2; the search tests size 3, sets [right = 2], tests size 1,
    and returns 1. *)
Theorem binary_search_misses_largest_block :
  map (prefix_invalid symeig_diag T_defect) (seq 1 6)
    = [false; false; true; true; true; true] ∧
  binary_search_symeig symeig_diag T_defect = 1.
Proof. split; vm_compute; reflexivity. Qed.

(** C4: for the operator [op_two_eigs] on dimension 4, four probes of ones
    and [max_iter = 15], the loop has three rounds and leaves at round 2
    because every [|beta_2| < 1e-4]; the 2 x 2 matrix is then assigned to a
    3 x 3 slot and [lanczos_batch] raises, and so does [evaluate] on the
    draw of these probes.  With [max_iter = 3] round 2 is the last one and
    the same probes give a result. *)
Theorem lanczos_batch_early_exit_size_mismatch :
  (∃ st,
     lanczos_iterate 15 (default_matmul_closure op_two_eigs) ones_4x4 = Ok (Some 2, st) ∧
     all_small (column 2 (st_beta st)) = true ∧
     all_small (column 1 (st_beta st)) = false ∧
     all_small (column 1 (st_alpha st)) = false) ∧
  lanczos_batch 15 (default_matmul_closure op_two_eigs) ones_4x4 = Err SizeMismatch ∧
  draw_probes all_ones 0 4 4 = ones_4x4 ∧
  evaluate symeig_small 15 4 (TensorOp op_two_eigs) 4 [map (λ x, sdiv (sofnat 1) x)]
           all_ones 0 = (Err SizeMismatch, 16) ∧
  (∃ Qs Ts,
     lanczos_batch 3 (default_matmul_closure op_two_eigs) ones_4x4 = Ok (Qs, Ts) ∧
     map length Ts = [2; 2; 2; 2]).
Proof.
  split; [eexists; split; [vm_compute; reflexivity|]; repeat split; vm_compute; reflexivity|].
  split; [vm_compute; reflexivity|]. split; [vm_compute; reflexivity|].
  split; [vm_compute; reflexivity|].
  eexists _, _. split; vm_compute; reflexivity.
Qed.

(** The search returns 0 on a matrix whose first entry is below [-1e-4]:
    for the 1 x 1 matrix the loop never runs, for sizes 2 and 3 the first
    size tested is 1.  Such a matrix is returned for the operator [-I] on
    dimension 2 with the probes (1, 1) and (1, -1). *)
Lemma binary_search_returns_zero :
  needs_fallback (symeig_small [[-1]%float]).1 = true ∧
  ¬ 1 ≤ binary_search_symeig symeig_small [[-1]%float] ∧
  needs_fallback (symeig_small [[-1; 0]; [0; 1]]%float).1 = true ∧
  ¬ 1 ≤ binary_search_symeig symeig_small [[-1; 0]; [0; 1]]%float ∧
  ∃ Qs T T',
    lanczos_batch 15 (default_matmul_closure [[-1; 0]; [0; -1]]%float)
                  [[1; 1]; [1; -1]]%float = Ok (Qs, [T; T']) ∧
    needs_fallback (symeig_small T).1 = true ∧
    ¬ 1 ≤ binary_search_symeig symeig_small T.
Proof.
  split; [vm_compute; reflexivity|]. split; [vm_compute; lia|].
  split; [vm_compute; reflexivity|]. split; [vm_compute; lia|].
  eexists _, _, _. split; [vm_compute; reflexivity|].
  split; [vm_compute; reflexivity|]. vm_compute. lia.
Qed.

Lemma fallback_block_nonempty_witness :
  needs_fallback (symeig_small [[-1; 0]; [0; 1]]%float).1 = true ∧
  quad_nodes symeig_small [[-1; 0]; [0; 1]]%float
    = symeig_small
        (submatrix (max (binary_search_symeig symeig_small [[-1; 0]; [0; 1]]%float) 1)
                   [[-1; 0]; [0; 1]]%float) ∧
  1 ≤ max (binary_search_symeig symeig_small [[-1; 0]; [0; 1]]%float) 1 ∧
  max (binary_search_symeig symeig_small [[-1; 0]; [0; 1]]%float) 1
    ≤ max (length [[-1; 0]; [0; 1]]%float) 1 ∧
  ([[-1; 0]; [0; 1]]%float ≠ [] →
   submatrix (max (binary_search_symeig symeig_small [[-1; 0]; [0; 1]]%float) 1)
             [[-1; 0]; [0; 1]]%float ≠ []).
Proof.
  split; [vm_compute; reflexivity|].
  apply (fallback_block_nonempty symeig_small [[-1; 0]; [0; 1]]%float).
  vm_compute; reflexivity.
Defined.

Lemma lanczos_batch_tridiagonal_witness :
  @zero_laws float float_scalar ∧
  ∃ Qs Ts,
    lanczos_batch 15 (default_matmul_closure op_circ) probes_3x3 = Ok (Qs, Ts) ∧
    ∃ k st,
      lanczos_iterate 15 (default_matmul_closure op_circ) probes_3x3 = Ok (Some k, st) ∧
      length Ts = ncols probes_3x3 ∧
      ∀ j, j < ncols probes_3x3 →
        ∃ T, Ts !! j = Some T ∧
          length T = k ∧ Forall (λ row, length row = k) T ∧
          (k = 1 → T = [[entry (st_alpha st) j 0]]) ∧
          (k ≠ 1 → ∀ i i', i < k → i' < k →
             entry T i i' =
             if i =? i' then sadd (entry (st_alpha st) j i) szero
             else if i' =? S i then sadd (entry (st_beta st) j i') szero
             else if i =? S i' then sadd (entry (st_beta st) j i) szero
             else szero) ∧
          (∀ i i', entry T i i' = entry T i' i).
Proof.
  split; [exact float_zero_laws|].
  eexists _, _. split; [vm_compute; reflexivity|].
  eapply (lanczos_batch_tridiagonal 15 (default_matmul_closure op_circ) probes_3x3).
  - exact float_zero_laws.
  - vm_compute; reflexivity.
Defined.

(** C8: for the operator [op_circ] on dimension 3, the batch of the unit
    vectors e1, e2, e3 gives probe e1 the matrix with [alpha_1 = 3]; with
    (1, 1, 0) in place of e2 as probe 1, and e1 and e3 unchanged, probe e1
    gets [alpha_1 = 2.30...] and another basis.  Run alone, e1 gets no
    result: the step returns three coefficients for the one probe and
    their assignment raises. *)
Theorem lanczos_batch_probes_interfere :
  let cl := default_matmul_closure op_circ in
  let batch := [[1; 0; 0]; [0; 1; 0]; [0; 0; 1]]%float in
  let batch' := [[1; 1; 0]; [0; 1; 0]; [0; 0; 1]]%float in
  (column 0 batch = [1; 0; 0]%float ∧ column 0 batch' = [1; 0; 0]%float ∧
   column 2 batch = column 2 batch') ∧
  (∃ Qs Ts Qs' Ts',
     lanczos_batch 15 cl batch = Ok (Qs, Ts) ∧
     lanczos_batch 15 cl batch' = Ok (Qs', Ts') ∧
     Ts !! 0 = Some [[2; 1.4142135625145165];
                     [1.4142135625145165; 3.0000000000000004]]%float ∧
     Ts' !! 0 = Some [[2; 1.4142135625145165];
                      [1.4142135625145165; 2.3010846821984456]]%float ∧
     Ts !! 0 ≠ Ts' !! 0 ∧ Qs !! 0 ≠ Qs' !! 0) ∧
  lanczos_batch 15 cl [[1]; [0]; [0]]%float = Err SizeMismatch ∧
  (∃ st0 e,
     init_state 3 cl [[1]; [0]; [0]]%float = Ok st0 ∧
     _lanczos_step_batch (st_U st0) (st_rhs st0) cl (Q_prefix 1 (st_Q st0)) = Ok e ∧
     length e.1.2 = 3 ∧ length (st_alpha st0) = 1).
Proof.
  intros cl batch batch'.
  split; [repeat split; reflexivity|]. split; [|split].
  - eexists _, _, _, _. split; [vm_compute; reflexivity|]. split; [vm_compute; reflexivity|].
    split; [vm_compute; reflexivity|]. split; [vm_compute; reflexivity|].
    split; vm_compute; discriminate.
  - vm_compute; reflexivity.
  - eexists _, _. split; [vm_compute; reflexivity|]. split; [vm_compute; reflexivity|].
    split; reflexivity.
Qed.

Lemma lanczos_batch_depth_bound_witness :
  ∃ Qs Ts,
    lanczos_batch 15 (default_matmul_closure op_circ) probes_3x3 = Ok (Qs, Ts) ∧
    ∃ k st0 st,
      init_state (min 15 (nrows probes_3x3)) (default_matmul_closure op_circ) probes_3x3
        = Ok st0 ∧
      lanczos_loop (default_matmul_closure op_circ) (seq 1 (min 15 (nrows probes_3x3) - 1))
                   None st0 = Ok (Some k, st) ∧
      S k ≤ min 15 (nrows probes_3x3) ∧
      (∀ Qj row, Qj ∈ Qs → row ∈ Qj → length row = k) ∧
      (∀ T, T ∈ Ts → length T = k ∧ ∀ row, row ∈ T → length row = k).
Proof.
  eexists _, _. split; [vm_compute; reflexivity|].
  eapply (lanczos_batch_depth_bound 15 (default_matmul_closure op_circ) probes_3x3).
  vm_compute; reflexivity.
Defined.

(** * Further properties of the code *)

Section MoreSearchFacts.
Context {R : Type} `{Scalar R}.
#[local] Abbreviation vec := (@vec R).
#[local] Abbreviation matrix := (@matrix R).
Variable symeig : matrix → vec * matrix.

(** X1: Under monotonic validity with largest valid size [K], the search
    returns [K] or [K - 1]: the size [mid - 1] becomes the upper end
    without being tested. *)
Theorem binary_search_within_one (T : matrix) (K : nat) :
  K ≤ length T →
  (∀ mid, 1 ≤ mid → mid ≤ length T →
     (prefix_invalid symeig T mid = false ↔ mid ≤ K)) →
  K - 1 ≤ binary_search_symeig symeig T ∧ binary_search_symeig symeig T ≤ K.
Proof.
  intros HK Hmono. unfold binary_search_symeig.
  apply (bsearch_loop_monotone symeig T K Hmono); lia.
Qed.

(** X2: The search returns a size within [0, len(T)] that is either 0 or a
    size whose leading block passed the test. *)
Theorem binary_search_result_valid (T : matrix) :
  binary_search_symeig symeig T ≤ length T ∧
  (binary_search_symeig symeig T = 0 ∨
   prefix_invalid symeig T (binary_search_symeig symeig T) = false).
Proof.
  unfold binary_search_symeig. split.
  - destruct (bsearch_loop_bounds symeig T (length T) 0 (length T)); lia.
  - apply bsearch_loop_valid. by left.
Qed.

Lemma bsearch_loop_enough (T : matrix) (fuel1 : nat) :
  ∀ fuel2 l r, r - l ≤ 2 ^ fuel1 → r - l ≤ 2 ^ fuel2 →
    bsearch_loop symeig fuel1 T l r = bsearch_loop symeig fuel2 T l r.
Proof.
  induction fuel1 as [|f1 IH]; intros fuel2 l r H1 H2.
  - cbn in H1. destruct fuel2 as [|f2]; cbn [bsearch_loop]; [reflexivity|].
    replace (1 <? r - l) with false by (symmetry; apply Nat.ltb_ge; lia). reflexivity.
  - cbn [bsearch_loop]. destruct (1 <? r - l) eqn:E.
    + apply Nat.ltb_lt in E. destruct fuel2 as [|f2]; [cbn in H2; lia|].
      cbn [bsearch_loop]. rewrite (proj2 (Nat.ltb_lt _ _) E).
      rewrite Nat.pow_succ_r' in H1, H2.
      pose proof (Nat.div_mod_eq (l + r) 2) as Hd.
      pose proof (Nat.mod_upper_bound (l + r) 2 ltac:(lia)).
      destruct (prefix_invalid symeig T ((l + r) / 2)); apply IH; lia.
    + destruct fuel2 as [|f2]; cbn [bsearch_loop]; [reflexivity|]. by rewrite E.
Qed.

(** X3: The [while] loop of the search ends after at most [ceil(log2 len(T))]
    rounds: any number of rounds [fuel] with [len(T) <= 2^fuel] gives the
    result. *)
Theorem binary_search_rounds (T : matrix) (fuel : nat) :
  length T ≤ 2 ^ fuel →
  bsearch_loop symeig fuel T 0 (length T) = binary_search_symeig symeig T.
Proof.
  intros Hf. unfold binary_search_symeig. apply bsearch_loop_enough; [lia|].
  pose proof (Nat.pow_gt_lin_r 2 (length T) ltac:(lia)). lia.
Qed.

(** X4: Under monotonic validity with at least one valid size, the block that
    the fallback of [evaluate] decomposes passes the test. *)
Theorem fallback_block_valid (T : matrix) (K : nat) :
  1 ≤ K → K ≤ length T →
  (∀ mid, 1 ≤ mid → mid ≤ length T →
     (prefix_invalid symeig T mid = false ↔ mid ≤ K)) →
  prefix_invalid symeig T (max (binary_search_symeig symeig T) 1) = false.
Proof.
  intros HK1 HK Hmono.
  assert (Hin : K - 1 ≤ binary_search_symeig symeig T ∧ binary_search_symeig symeig T ≤ K)
    by (apply (bsearch_loop_monotone symeig T K Hmono); lia).
  apply Hmono; lia.
Qed.

End MoreSearchFacts.

Section MoreBatchFacts.
Context {R : Type} `{Scalar R}.
#[local] Abbreviation vec := (@vec R).
#[local] Abbreviation matrix := (@matrix R).
#[local] Abbreviation loop_state := (@loop_state R).
#[local] Abbreviation operator := (@operator R).

Lemma mapM_Err_head {A B} (f : A → result B) (x : A) (l : list A) (e : error) :
  f x = Err e → mapM f (x :: l) = Err e.
Proof. intros Hx. cbn [mapM]. by rewrite Hx. Qed.

Lemma mapM_all_Ok {A B} (f : A → result B) (l : list A) :
  (∀ x, x ∈ l → ∃ y, f x = Ok y) → ∃ ys, mapM f l = Ok ys.
Proof.
  induction l as [|x l IH]; intros Hall; [by exists []|].
  destruct (Hall x) as [y Hy]; [by left|].
  destruct IH as [ys Hys]; [intros x' Hx'; apply Hall; by right|].
  exists (y :: ys). cbn [mapM]. by rewrite Hy, Hys.
Qed.

Lemma assign_slice_tridiag (m k : nat) (aj bj : vec) :
  2 ≤ k → k < length aj → k < length bj →
  assign_slice m (tridiag (take k aj) (drop 1 (take k bj))) =
  if k =? m then Ok (tridiag (take k aj) (drop 1 (take k bj))) else Err SizeMismatch.
Proof.
  intros Hk Ha Hb.
  assert (Hlen : length (take k aj) = S (length (drop 1 (take k bj))))
    by (rewrite length_drop, !length_take; lia).
  destruct (tridiag_shape _ _ Hlen) as [HlT HrT].
  rewrite length_take in HlT, HrT. replace (k `min` length aj) with k in * by lia.
  unfold assign_slice. rewrite HlT. destruct (k =? m) eqn:E; [|reflexivity].
  apply Nat.eqb_eq in E as <-. cbn [andb].
  replace (forallb _ _) with true; [reflexivity|].
  symmetry. apply forallb_forall. intros row Hrow%list_elem_of_In.
  apply Nat.eqb_eq. eapply (proj1 (Forall_forall _ _) HrT), Hrow.
Qed.

(** X5: Which exits of the loop let [lanczos_batch] return: for a batch with
    at least one probe, the call returns when the loop variable ends at 1
    or at the last round [num_iters - 1], and raises the size mismatch at
    every other round, where the [k x k] matrix does not fit the slot of
    size [num_iters - 1]. *)
Theorem lanczos_batch_result_cases (max_iter : nat) (cl : matrix → result matrix)
    (rhs : matrix) (k : nat) (st : loop_state) :
  1 ≤ ncols rhs →
  lanczos_iterate max_iter cl rhs = Ok (Some k, st) →
  (k = 1 ∨ k = min max_iter (nrows rhs) - 1 →
     ∃ Qs Ts, lanczos_batch max_iter cl rhs = Ok (Qs, Ts)) ∧
  (k ≠ 1 → k ≠ min max_iter (nrows rhs) - 1 →
     lanczos_batch max_iter cl rhs = Err SizeMismatch).
Proof.
  intros Hrhs Hit. set (n := min max_iter (nrows rhs)) in *.
  destruct (lanczos_iterate_inv _ _ _ _ _ Hit) as (st0 & _ & _ & Hn & Hws & Hb & Hcase).
  fold n in Hws, Hcase.
  destruct Hcase as [(_ & [=] & _)|(k' & [= <-] & Hk1 & Hkn & _)].
  assert (Hrun : lanczos_batch max_iter cl rhs = assemble n k st).
  { unfold lanczos_batch. cbv zeta. by rewrite Hit. }
  rewrite Hrun. unfold assemble. cbv zeta.
  destruct Hws as (Hwa & Hwb & _). destruct Hb as (Hla & Hlb & _).
  split.
  - intros Hcase. destruct (k =? 1) eqn:E1; [by eexists _, _|].
    apply Nat.eqb_neq in E1. destruct Hcase as [|Hkl]; [lia|].
    destruct (mapM_all_Ok
                (λ ab : vec * vec, assign_slice (n - 1) (tridiag ab.1 ab.2))
                (zip (map (take k) (st_alpha st))
                     (map (λ b, drop 1 (take k b)) (st_beta st)))) as [Ts HTs].
    + intros [a b] Hab. apply list_elem_of_lookup_1 in Hab as [i Hab].
      apply lookup_zip_Some in Hab as [Ha Hb']. rewrite lookup_map in Ha, Hb'.
      apply fmap_Some in Ha as (aj & Haj & ->). apply fmap_Some in Hb' as (bj & Hbj & ->).
      pose proof (Forall_lookup_1 _ _ _ _ Hwa Haj) as Hlaj.
      pose proof (Forall_lookup_1 _ _ _ _ Hwb Hbj) as Hlbj. cbn beta in Hlaj, Hlbj.
      cbn [fst snd]. rewrite assign_slice_tridiag by lia.
      rewrite (proj2 (Nat.eqb_eq _ _) Hkl). by eexists.
    + rewrite HTs. cbn [bind]. by eexists _, _.
  - intros Hk1' Hkn'. rewrite (proj2 (Nat.eqb_neq _ _) Hk1').
    destruct (st_alpha st) as [|aj alpha] eqn:Ea; [cbn in Hla; lia|].
    destruct (st_beta st) as [|bj beta] eqn:Eb; [cbn in Hlb; lia|].
    apply Forall_cons in Hwa as [Hlaj _]. apply Forall_cons in Hwb as [Hlbj _].
    cbn [map zip zip_with].
    erewrite mapM_Err_head; [reflexivity|]. cbn [fst snd].
    rewrite assign_slice_tridiag by lia.
    by rewrite (proj2 (Nat.eqb_neq _ _) Hkn').
Qed.

(** X6: The coefficients computed in the last round performed never reach the
    result: the matrices returned are those that [assemble] builds from
    the state before that round.  ([alpha[:, :k]] and [beta[:, 1:k]] stop
    short of column [k], the one the last round wrote.) *)
Theorem lanczos_batch_drops_last_round (max_iter : nat) (cl : matrix → result matrix)
    (rhs : matrix) (Qs Ts : list matrix) :
  lanczos_batch max_iter cl rhs = Ok (Qs, Ts) →
  ∃ k st0 st st' Qs',
    init_state (min max_iter (nrows rhs)) cl rhs = Ok st0 ∧
    lanczos_loop cl (seq 1 (min max_iter (nrows rhs) - 1)) None st0 = Ok (Some k, st) ∧
    1 ≤ k ∧
    unrolled cl st0 (k - 1) = Ok st' ∧
    loop_body cl k st' = Ok st ∧
    assemble (min max_iter (nrows rhs)) k st' = Ok (Qs', Ts).
Proof.
  intros Hr.
  destruct (lanczos_batch_Ok_inv _ _ _ _ Hr)
    as (k & st0 & st & Hi & Hl & _ & Hasm & Hk1 & _ & _ & _ & Hst).
  set (n := min max_iter (nrows rhs)) in *.
  destruct k as [|k']; [lia|]. rewrite unrolled_S in Hst. inv_bind Hst. rename a into st'.
  exists (S k'), st0, st, st', (Q_prefix (S k') (st_Q st')).
  split; [exact Hi|]. split; [exact Hl|]. split; [lia|].
  replace (S k' - 1) with k' by lia. split; [exact E|]. split; [exact Hst|].
  destruct (loop_body_keeps_columns _ _ _ _ Hst) as (Ha & Hbe & _).
  assert (Hbe' : map (λ b, drop 1 (take (S k') b)) (st_beta st)
                 = map (λ b, drop 1 (take (S k') b)) (st_beta st')).
  { rewrite <- !(map_map (take (S k')) (drop 1)). by rewrite Hbe. }
  assert (Ha1 : map (λ a, [take (S k') a]) (st_alpha st)
                = map (λ a, [take (S k') a]) (st_alpha st')).
  { rewrite <- !(map_map (take (S k')) (λ t, [t])). by rewrite Ha. }
  unfold assemble in Hasm |- *. cbv zeta in Hasm |- *.
  rewrite Ha, Hbe', Ha1 in Hasm.
  destruct (S k' =? 1).
  - injection Hasm as _ <-. reflexivity.
  - destruct (mapM _ _) as [Ts0|]; cbn [bind] in Hasm |- *; [|discriminate].
    injection Hasm as _ <-. reflexivity.
Qed.

(** X8: A coefficient is written once: what round [i] stored in [alpha[:, i]]
    and [beta[:, i]] is still there after every later round. *)
Theorem coefficients_written_once (cl : matrix → result matrix) (st0 stk : loop_state)
    (i k j : nat) :
  i ≤ k →
  unrolled cl st0 k = Ok stk →
  ∃ sti, unrolled cl st0 i = Ok sti ∧
    entry (st_alpha stk) j i = entry (st_alpha sti) j i ∧
    entry (st_beta stk) j i = entry (st_beta sti) j i.
Proof.
  intros Hik. revert stk. induction Hik as [|k Hik IH]; intros stk Hk.
  - by exists stk.
  - rewrite unrolled_S in Hk. inv_bind Hk.
    destruct (IH _ E) as (sti & Hi & Ha & Hb). exists sti. split; [exact Hi|].
    destruct (loop_body_keeps_columns _ _ _ _ Hk) as (_ & _ & Hne).
    destruct (Hne i j) as [Ha' Hb']; [lia|]. by rewrite Ha', Hb'.
Qed.

End MoreBatchFacts.

(** * Worked examples for the further properties *)

Lemma T_defect_monotone :
  ∀ mid, 1 ≤ mid → mid ≤ length T_defect →
    (prefix_invalid symeig_diag T_defect mid = false ↔ mid ≤ 2).
Proof.
  intros mid H1 H2. change (length T_defect) with 6 in H2.
  assert (Hc : mid = 1 ∨ mid = 2 ∨ mid = 3 ∨ mid = 4 ∨ mid = 5 ∨ mid = 6) by lia.
  destruct Hc as [->|[->|[->|[->|[->| ->]]]]]; vm_compute;
    (split; intros ?; first [reflexivity | lia | discriminate]).
Qed.

Lemma binary_search_within_one_witness :
  2 ≤ length T_defect ∧
  2 - 1 ≤ binary_search_symeig symeig_diag T_defect ∧
  binary_search_symeig symeig_diag T_defect ≤ 2.
Proof.
  split; [vm_compute; lia|].
  apply (binary_search_within_one symeig_diag T_defect 2);
    [vm_compute; lia | exact T_defect_monotone].
Defined.

Lemma binary_search_rounds_witness :
  length T_defect ≤ 2 ^ 3 ∧
  bsearch_loop symeig_diag 3 T_defect 0 (length T_defect)
    = binary_search_symeig symeig_diag T_defect.
Proof.
  split; [vm_compute; lia|].
  apply (binary_search_rounds symeig_diag T_defect 3). vm_compute; lia.
Defined.

Lemma fallback_block_valid_witness :
  1 ≤ 2 ∧ 2 ≤ length T_defect ∧
  prefix_invalid symeig_diag T_defect (max (binary_search_symeig symeig_diag T_defect) 1)
    = false.
Proof.
  split; [lia|]. split; [vm_compute; lia|].
  apply (fallback_block_valid symeig_diag T_defect 2);
    [lia | vm_compute; lia | exact T_defect_monotone].
Defined.

Lemma lanczos_batch_result_cases_witness :
  1 ≤ ncols ones_4x4 ∧
  ∃ st,
    lanczos_iterate 15 (default_matmul_closure op_two_eigs) ones_4x4 = Ok (Some 2, st) ∧
    (2 = 1 ∨ 2 = min 15 (nrows ones_4x4) - 1 →
       ∃ Qs Ts, lanczos_batch 15 (default_matmul_closure op_two_eigs) ones_4x4
                = Ok (Qs, Ts)) ∧
    (2 ≠ 1 → 2 ≠ min 15 (nrows ones_4x4) - 1 →
       lanczos_batch 15 (default_matmul_closure op_two_eigs) ones_4x4
       = Err SizeMismatch).
Proof.
  split; [vm_compute; lia|].
  eexists. split; [vm_compute; reflexivity|].
  eapply (lanczos_batch_result_cases 15 (default_matmul_closure op_two_eigs) ones_4x4 2).
  - vm_compute; lia.
  - vm_compute; reflexivity.
Defined.

Lemma lanczos_batch_drops_last_round_witness :
  ∃ Qs Ts,
    lanczos_batch 15 (default_matmul_closure op_circ) probes_3x3 = Ok (Qs, Ts) ∧
    ∃ k st0 st st' Qs',
      init_state (min 15 (nrows probes_3x3)) (default_matmul_closure op_circ) probes_3x3
        = Ok st0 ∧
      lanczos_loop (default_matmul_closure op_circ) (seq 1 (min 15 (nrows probes_3x3) - 1))
                   None st0 = Ok (Some k, st) ∧
      1 ≤ k ∧
      unrolled (default_matmul_closure op_circ) st0 (k - 1) = Ok st' ∧
      loop_body (default_matmul_closure op_circ) k st' = Ok st ∧
      assemble (min 15 (nrows probes_3x3)) k st' = Ok (Qs', Ts).
Proof.
  eexists _, _. split; [vm_compute; reflexivity|].
  eapply (lanczos_batch_drops_last_round 15 (default_matmul_closure op_circ) probes_3x3).
  vm_compute; reflexivity.
Defined.

Lemma coefficients_written_once_witness :
  ∃ st0 st2,
    init_state 3 (default_matmul_closure op_circ) probes_3x3 = Ok st0 ∧
    1 ≤ 2 ∧
    unrolled (default_matmul_closure op_circ) st0 2 = Ok st2 ∧
    ∃ st1, unrolled (default_matmul_closure op_circ) st0 1 = Ok st1 ∧
      entry (st_alpha st2) 1 1 = entry (st_alpha st1) 1 1 ∧
      entry (st_beta st2) 1 1 = entry (st_beta st1) 1 1.
Proof.
  eexists _, _. split; [vm_compute; reflexivity|]. split; [lia|].
  split; [vm_compute; reflexivity|].
  eapply (coefficients_written_once (default_matmul_closure op_circ) _ _ 1 2 1); [lia|].
  vm_compute; reflexivity.
Defined.

(** * Which runs return *)

Section ShapeAlgebra.
Context {R : Type} `{Scalar R}.
#[local] Abbreviation vec := (@vec R).
#[local] Abbreviation matrix := (@matrix R).
#[local] Abbreviation loop_state := (@loop_state R).

(** *** The shapes that the tensor operations give *)

Lemma has_shape_tabulate2 (r c : nat) (f : nat → nat → R) :
  has_shape r c (tabulate2 r c f).
Proof. split; [apply length_tabulate2 | apply tabulate2_rows]. Qed.

Lemma has_shape_nrows (r c : nat) (M : matrix) : has_shape r c M → nrows M = r.
Proof. by intros [Hr _]. Qed.

Lemma has_shape_ncols (r c : nat) (M : matrix) : 1 ≤ r → has_shape r c M → ncols M = c.
Proof.
  intros Hr [Hl Hrows]. destruct M as [|row M]; [cbn in Hl; lia|].
  by apply Forall_cons in Hrows as [Hrow _].
Qed.

Lemma has_shape_row (v : vec) : has_shape 1 (length v) [v].
Proof. split; [reflexivity | by repeat constructor]. Qed.

Lemma length_col_sums (M : matrix) : length (col_sums M) = ncols M.
Proof. unfold col_sums, transpose. by rewrite length_map, length_tabulate2. Qed.

Lemma length_col_norms (M : matrix) : length (col_norms M) = ncols M.
Proof. unfold col_norms, transpose. by rewrite length_map, length_tabulate2. Qed.

Lemma has_shape_transpose (r c : nat) (M : matrix) :
  1 ≤ r → has_shape r c M → has_shape c r (transpose M).
Proof.
  intros Hr HM. unfold transpose.
  rewrite (has_shape_nrows _ _ _ HM), (has_shape_ncols _ _ _ Hr HM).
  apply has_shape_tabulate2.
Qed.

Lemma has_shape_add_eps (r c : nat) (M : matrix) :
  has_shape r c M → has_shape r c (add_eps M).
Proof.
  intros [Hl Hrows]. unfold add_eps. split; [by rewrite length_map|].
  apply Forall_forall. intros row Hrow.
  apply list_elem_of_In, in_map_iff in Hrow as (row0 & <- & Hrow0).
  rewrite length_map. apply list_elem_of_In in Hrow0.
  exact (proj1 (Forall_forall _ _) Hrows _ Hrow0).
Qed.

Lemma fits_1_l (a : nat) : fits 1 a = true.
Proof. unfold fits. cbn. by rewrite orb_true_r. Qed.

Lemma fits_1_r (a : nat) : fits a 1 = true.
Proof. unfold fits. cbn. by rewrite !orb_true_r. Qed.

Lemma bsize_1_l (a : nat) : bsize 1 a = a.
Proof. reflexivity. Qed.

Lemma bsize_1_r (a : nat) : bsize a 1 = a.
Proof. unfold bsize. destruct (a =? 1) eqn:E; [|reflexivity]. by apply Nat.eqb_eq in E. Qed.

(** Operands that broadcast. *)
Lemma pointwise_broadcast (f : R → R → R) (ra ca rb cb : nat) (A B : matrix) :
  1 ≤ ra → 1 ≤ rb → has_shape ra ca A → has_shape rb cb B →
  fits ra rb = true → fits ca cb = true →
  ∃ M, pointwise f A B = Ok M ∧ has_shape (bsize ra rb) (bsize ca cb) M.
Proof.
  intros Hra Hrb HA HB Hfr Hfc. unfold pointwise.
  rewrite (has_shape_nrows _ _ _ HA), (has_shape_nrows _ _ _ HB),
    (has_shape_ncols _ _ _ Hra HA), (has_shape_ncols _ _ _ Hrb HB), Hfr, Hfc.
  cbn [andb]. eexists. split; [reflexivity | apply has_shape_tabulate2].
Qed.

(** Operands of one shape. *)
Lemma pointwise_same (f : R → R → R) (r c : nat) (A B : matrix) :
  1 ≤ r → has_shape r c A → has_shape r c B →
  ∃ M, pointwise f A B = Ok M ∧ has_shape r c M.
Proof.
  intros Hr HA HB.
  destruct (pointwise_broadcast f r c r c A B Hr Hr HA HB (fits_same r) (fits_same c))
    as (M & HM & Hs).
  exists M. split; [exact HM|]. by rewrite !bsize_same in Hs.
Qed.

(** A row against a matrix of as many columns, in either order. *)
Lemma pointwise_row_l (f : R → R → R) (r c : nat) (v : vec) (B : matrix) :
  1 ≤ r → length v = c → has_shape r c B →
  ∃ M, pointwise f [v] B = Ok M ∧ has_shape r c M.
Proof.
  intros Hr Hv HB.
  destruct (pointwise_broadcast f 1 c r c [v] B) as (M & HM & Hs);
    [lia | exact Hr | rewrite <- Hv; apply has_shape_row | exact HB | apply fits_1_l
    | apply fits_same |].
  exists M. split; [exact HM|]. by rewrite bsize_same, bsize_1_l in Hs.
Qed.

Lemma pointwise_row_r (f : R → R → R) (r c : nat) (A : matrix) (v : vec) :
  1 ≤ r → length v = c → has_shape r c A →
  ∃ M, pointwise f A [v] = Ok M ∧ has_shape r c M.
Proof.
  intros Hr Hv HA.
  destruct (pointwise_broadcast f r c 1 c A [v]) as (M & HM & Hs);
    [exact Hr | lia | exact HA | rewrite <- Hv; apply has_shape_row
    | apply fits_1_r | apply fits_same |].
  exists M. split; [exact HM|]. by rewrite bsize_same, bsize_1_r in Hs.
Qed.

(** A [(d, p)] tensor against a [(p, d)] tensor, as at line 81: one shape
    when [d = p], and otherwise no broadcast but as many entries. *)
Lemma pointwise_transposed (f : R → R → R) (d p : nat) (A B : matrix) :
  2 ≤ d → 2 ≤ p → has_shape d p A → has_shape p d B →
  ∃ M, pointwise f A B = Ok M ∧ has_shape d p M.
Proof.
  intros Hd Hp HA HB. destruct (decide (d = p)) as [->|Hne].
  - by apply pointwise_same; [lia|..].
  - unfold pointwise.
    rewrite (has_shape_nrows _ _ _ HA), (has_shape_nrows _ _ _ HB),
      (has_shape_ncols d p A ltac:(lia) HA), (has_shape_ncols p d B ltac:(lia) HB).
    replace (fits d p) with false
      by (unfold fits; symmetry; rewrite !orb_false_iff, !Nat.eqb_neq; lia).
    cbn [andb]. rewrite (proj2 (Nat.eqb_eq _ _) (Nat.mul_comm d p)).
    eexists. split; [reflexivity | apply has_shape_tabulate2].
Qed.

(** A column [(d, 1)] against a row [(1, d)] gives a square: the two
    broadcast. *)
Lemma pointwise_column_row (f : R → R → R) (d : nat) (A B : matrix) :
  2 ≤ d → has_shape d 1 A → has_shape 1 d B →
  ∃ M, pointwise f A B = Ok M ∧ has_shape d d M.
Proof.
  intros Hd HA HB.
  destruct (pointwise_broadcast f d 1 1 d A B) as (M & HM & Hs);
    [lia | lia | exact HA | exact HB | apply fits_1_r | apply fits_1_l |].
  exists M. split; [exact HM|]. by rewrite bsize_1_r, bsize_1_l in Hs.
Qed.

(** A square against a column. *)
Lemma pointwise_square_column (f : R → R → R) (d : nat) (A B : matrix) :
  2 ≤ d → has_shape d d A → has_shape d 1 B →
  ∃ M, pointwise f A B = Ok M ∧ has_shape d d M.
Proof.
  intros Hd HA HB.
  destruct (pointwise_broadcast f d d d 1 A B) as (M & HM & Hs);
    [lia | lia | exact HA | exact HB | apply fits_same | apply fits_1_r |].
  exists M. split; [exact HM|]. by rewrite bsize_same, bsize_1_r in Hs.
Qed.

Lemma div_cols_shape (r c : nat) (X : matrix) :
  1 ≤ r → has_shape r c X → ∃ M, div_cols X = Ok M ∧ has_shape r c M.
Proof.
  intros Hr HX. unfold div_cols. apply pointwise_row_r; [exact Hr| |exact HX].
  rewrite length_col_norms. by apply (has_shape_ncols r).
Qed.

Lemma has_shape3_prefix (p d n k : nat) (Q : list matrix) :
  k ≤ n → has_shape3 p d n Q → has_shape3 p d k (Q_prefix k Q).
Proof.
  intros Hk [Hl HQ]. unfold Q_prefix. split; [by rewrite length_map|].
  apply Forall_forall. intros Qj HQj.
  apply list_elem_of_In, in_map_iff in HQj as (Qj0 & <- & HQj0). apply list_elem_of_In in HQj0.
  destruct (proj1 (Forall_forall _ _) HQ _ HQj0) as [Hlj Hrows].
  split; [by rewrite length_map|].
  apply Forall_forall. intros row Hrow.
  apply list_elem_of_In, in_map_iff in Hrow as (row0 & <- & Hrow0). apply list_elem_of_In in Hrow0.
  pose proof (proj1 (Forall_forall _ _) Hrows _ Hrow0) as Hlen. cbn beta in Hlen.
  rewrite length_take. lia.
Qed.

Lemma has_shape3_transpose (p d k : nat) (Q : list matrix) :
  1 ≤ d → has_shape3 p d k Q → has_shape3 p k d (map transpose Q).
Proof.
  intros Hd [Hl HQ]. split; [by rewrite length_map|].
  apply Forall_forall. intros Qj HQj.
  apply list_elem_of_In, in_map_iff in HQj as (Qj0 & <- & HQj0). apply list_elem_of_In in HQj0.
  apply has_shape_transpose; [exact Hd|]. exact (proj1 (Forall_forall _ _) HQ _ HQj0).
Qed.

(** [_batch_mv] of [(p, r, c)] and [(p, c)] gives [(p, r)]. *)
Lemma batch_mv_shape (p r c : nat) (M : list matrix) (V : matrix) :
  1 ≤ p → 1 ≤ r → has_shape3 p r c M → has_shape p c V →
  ∃ X, _batch_mv M V = Ok X ∧ has_shape p r X.
Proof.
  intros Hp Hr [Hl HM] HV. unfold _batch_mv, expand. cbv zeta.
  assert (Hhd : ncols (hd [] M) = c).
  { destruct M as [|M0 M]; [cbn in Hl; lia|]. apply Forall_cons in HM as [HM0 _].
    by apply (has_shape_ncols r). }
  rewrite Hhd, Hl, (has_shape_nrows _ _ _ HV), (has_shape_ncols _ _ _ Hp HV), !Nat.eqb_refl.
  cbn [orb andb bind]. eexists. split; [reflexivity|].
  split.
  - rewrite length_zip_with, length_tabulate2. lia.
  - apply Forall_lookup. intros j row Hj.
    apply lookup_zip_with_Some in Hj as (Mj & Vj & -> & HMj & _).
    unfold matvec. rewrite length_map.
    by destruct (Forall_lookup_1 _ _ _ _ HM HMj) as [HlMj _].
Qed.

Lemma set_column_Ok (k : nat) (vals : vec) (A : list vec) :
  length vals = length A → ∃ A', set_column k vals A = Ok A'.
Proof. intros Hl. unfold set_column. rewrite Hl, Nat.eqb_refl. by eexists. Qed.

Lemma set_column_Err (k : nat) (vals : vec) (A : list vec) :
  length vals ≠ length A → length vals ≠ 1 → set_column k vals A = Err SizeMismatch.
Proof.
  intros H1 H2. unfold set_column.
  by rewrite (proj2 (Nat.eqb_neq _ _) H1), (proj2 (Nat.eqb_neq _ _) H2).
Qed.

(** The [(d, p)] tensor is stored in the [(p, d)] slice of [Q]. *)
Lemma set_Q_column_Ok (k p d n : nat) (U : matrix) (Q : list matrix) :
  1 ≤ p → 1 ≤ d → has_shape d p U → has_shape3 p d n Q →
  ∃ Q', set_Q_column k U Q = Ok Q' ∧ has_shape3 p d n Q'.
Proof.
  intros Hp Hd HU HQ.
  assert (HOk : ∃ Q', set_Q_column k U Q = Ok Q').
  { destruct HQ as [Hl HQ]. unfold set_Q_column. cbv zeta.
    assert (Hhd : nrows (hd [] Q) = d).
    { destruct Q as [|Q0 Q]; [cbn in Hl; lia|]. apply Forall_cons in HQ as [HQ0 _].
      by apply (has_shape_nrows d n). }
    rewrite Hhd, Hl, (has_shape_nrows _ _ _ HU), (has_shape_ncols _ _ _ Hd HU).
    destruct (_ && _); [by eexists|].
    rewrite (proj2 (Nat.eqb_eq _ _) (Nat.mul_comm d p)). by eexists. }
  destruct HOk as [Q' HQ']. exists Q'. split; [exact HQ'|].
  destruct HQ as [Hl HQ]. split; [by rewrite (set_Q_column_length _ _ _ _ HQ')|].
  apply Forall_lookup. intros j Qj' Hj. split.
  - unfold set_Q_column in HQ'. cbv zeta in HQ'.
    destruct (_ && _); [|destruct (_ =? _); [|discriminate]]; injection HQ' as <-;
      rewrite list_lookup_imap in Hj; apply fmap_Some in Hj as (Qj & HQj & ->);
      rewrite length_imap; by destruct (Forall_lookup_1 _ _ _ _ HQ HQj).
  - apply Forall_lookup. intros i row' Hi.
    destruct (set_Q_column_lookup _ _ _ _ _ _ _ _ HQ' Hj Hi) as (Qj & row & x & HQj & Hrow & ->).
    rewrite length_insert.
    destruct (Forall_lookup_1 _ _ _ _ HQ HQj) as [_ Hrows].
    exact (Forall_lookup_1 _ _ _ _ Hrows Hrow).
Qed.

End ShapeAlgebra.

Section Runs.
Context {R : Type} `{Scalar R}.
#[local] Abbreviation vec := (@vec R).
#[local] Abbreviation matrix := (@matrix R).
#[local] Abbreviation loop_state := (@loop_state R).

(** *** Lines 37 to 47 *)

Lemma init_state_runs (n d p : nat) (cl : matrix → result matrix) (rhs : matrix) :
  1 ≤ n → 1 ≤ d → 1 ≤ p → keeps_shape d cl → has_shape d p rhs →
  ∃ st0 U AU UR,
    init_state n cl rhs = Ok st0 ∧ state_shape d p n st0 ∧
    div_cols rhs = Ok U ∧ cl U = Ok AU ∧ pointwise smul U AU = Ok UR ∧
    has_shape d p U ∧ has_shape d p AU ∧
    map (take 1) (st_alpha st0) = map (λ a, [a]) (col_sums UR).
Proof.
  intros Hn Hd Hp Hcl Hrhs. unfold init_state. cbv zeta.
  rewrite (has_shape_nrows _ _ _ Hrhs), (has_shape_ncols _ _ _ Hd Hrhs).
  step (div_cols_shape d p rhs Hd Hrhs) U HU HsU.
  replace (n =? 0) with false by (symmetry; apply Nat.eqb_neq; lia).
  assert (HQ0 : has_shape3 p d n (replicate p (replicate d (replicate n (szero : R))))).
  { split; [apply length_replicate|]. apply Forall_replicate.
    split; [apply length_replicate|]. apply Forall_replicate, length_replicate. }
  step (set_Q_column_Ok 0 p d n U _ Hp Hd HsU HQ0) Q HQ HsQ.
  step (Hcl U p HsU) AU HAU HsAU.
  step (pointwise_same smul d p U AU Hd HsU HsAU) UR HUR HsUR.
  assert (Hla : length (col_sums UR) = p)
    by (rewrite length_col_sums; by apply (has_shape_ncols d)).
  step (pointwise_row_l smul d p (col_sums UR) U Hd Hla HsU) aU HaU HsaU.
  step (pointwise_same ssub d p AU aU Hd HsAU HsaU) RaU HRaU HsRaU.
  pose proof (has_shape_add_eps _ _ _ HsRaU) as Hsrhs.
  assert (Hlb : length (col_norms (add_eps RaU)) = p)
    by (rewrite length_col_norms; by apply (has_shape_ncols d)).
  assert (HA0 : has_shape p n (replicate p (replicate n (szero : R))))
    by (split; [apply length_replicate | apply Forall_replicate, length_replicate]).
  destruct (set_column_Ok 0 (col_norms (add_eps RaU)) (replicate p (replicate n szero)))
    as [beta Hbeta]; [by rewrite length_replicate|].
  rewrite Hbeta. cbn [bind].
  destruct (set_column_Ok 0 (col_sums UR) (replicate p (replicate n szero)))
    as [alpha Halpha]; [by rewrite length_replicate|].
  rewrite Halpha. cbn [bind].
  eexists _, U, AU, UR. split; [reflexivity|].
  split; [|split; [first [reflexivity | exact HU]|];
            split; [first [reflexivity | exact HAU]|];
            split; [first [reflexivity | exact HUR]|];
            split; [exact HsU|]; split; [exact HsAU|]].
  - unfold state_shape. cbn [st_U st_rhs st_Q st_alpha st_beta].
    split; [exact HsU|]. split; [exact Hsrhs|]. split; [exact HsQ|].
    destruct HA0 as [HA0l HA0r].
    split; (split; [erewrite set_column_length by eassumption; exact HA0l
                   | eapply set_column_rows; eassumption]).
  - cbn [st_alpha]. unfold set_column in Halpha.
    rewrite Hla, length_replicate, Nat.eqb_refl in Halpha. injection Halpha as <-.
    clear -Hla Hn. revert p Hla. induction (col_sums UR) as [|a l IH]; intros p Hla.
    + destruct p; [reflexivity | discriminate].
    + destruct p as [|p]; [discriminate|]. cbn [replicate zip_with map]. f_equal.
      * destruct n; [lia|]. reflexivity.
      * apply IH. by injection Hla.
Qed.

(** *** One step, for two or more probes and for a single probe *)

Lemma lanczos_step_batch_runs (d p k : nat) (cl : matrix → result matrix)
    (U rhs : matrix) (Q : list matrix) :
  2 ≤ d → 2 ≤ p → 1 ≤ k → keeps_shape d cl →
  has_shape d p U → has_shape d p rhs → has_shape3 p d k Q →
  ∃ e, _lanczos_step_batch U rhs cl Q = Ok e ∧
    has_shape d p e.1.1.1 ∧ has_shape d p e.1.1.2 ∧
    length e.1.2 = p ∧ length e.2 = p.
Proof.
  intros Hd Hp Hk Hcl HsU Hsrhs HsQ. unfold _lanczos_step_batch. cbv zeta.
  assert (Hln : length (col_norms rhs) = p)
    by (rewrite length_col_norms; apply (has_shape_ncols d); [lia | exact Hsrhs]).
  step (pointwise_row_r sdiv d p rhs (col_norms rhs)) U1 HU1 HsU1.
  pose proof (has_shape_transpose d p U1 ltac:(lia) HsU1) as HsU1t.
  pose proof (has_shape3_transpose p d k Q ltac:(lia) HsQ) as HsQt.
  step (batch_mv_shape p k d (map transpose Q) (transpose U1)) X1 HX1 HsX1.
  step (batch_mv_shape p d k Q X1) X2 HX2 HsX2.
  step (pointwise_transposed ssub d p U1 X2) U2 HU2 HsU2.
  step (div_cols_shape d p U2) U3 HU3 HsU3.
  step (Hcl U3 p HsU3) AU HAU HsAU.
  step (pointwise_row_l smul d p (col_norms rhs) U) NU HNU HsNU.
  step (pointwise_same ssub d p AU NU) R0 HR0 HsR0.
  step (pointwise_same smul d p U3 R0) UR HUR HsUR.
  assert (Hla : length (col_sums UR) = p)
    by (rewrite length_col_sums; apply (has_shape_ncols d); [lia | exact HsUR]).
  step (pointwise_row_l smul d p (col_sums UR) U3) aU HaU HsaU.
  step (pointwise_same ssub d p R0 aU) RaU HRaU HsRaU.
  eexists. split; [reflexivity|]. cbn [fst snd].
  split; [exact HsU3|]. split; [by apply has_shape_add_eps|]. by split.
Qed.

Lemma lanczos_step_batch_single (d k : nat) (cl : matrix → result matrix)
    (U rhs : matrix) (Q : list matrix) :
  2 ≤ d → 1 ≤ k → keeps_shape d cl →
  has_shape d 1 U → has_shape d 1 rhs → has_shape3 1 d k Q →
  ∃ e, _lanczos_step_batch U rhs cl Q = Ok e ∧
    has_shape d d e.1.1.1 ∧ has_shape d d e.1.1.2 ∧
    length e.1.2 = d ∧ length e.2 = 1.
Proof.
  intros Hd Hk Hcl HsU Hsrhs HsQ. unfold _lanczos_step_batch. cbv zeta.
  assert (Hln : length (col_norms rhs) = 1)
    by (rewrite length_col_norms; apply (has_shape_ncols d); [lia | exact Hsrhs]).
  step (pointwise_row_r sdiv d 1 rhs (col_norms rhs)) U1 HU1 HsU1.
  pose proof (has_shape_transpose d 1 U1 ltac:(lia) HsU1) as HsU1t.
  pose proof (has_shape3_transpose 1 d k Q ltac:(lia) HsQ) as HsQt.
  step (batch_mv_shape 1 k d (map transpose Q) (transpose U1)) X1 HX1 HsX1.
  step (batch_mv_shape 1 d k Q X1) X2 HX2 HsX2.
  step (pointwise_column_row ssub d U1 X2) U2 HU2 HsU2.
  step (div_cols_shape d d U2) U3 HU3 HsU3.
  step (Hcl U3 d HsU3) AU HAU HsAU.
  step (pointwise_row_l smul d 1 (col_norms rhs) U) NU HNU HsNU.
  step (pointwise_square_column ssub d AU NU) R0 HR0 HsR0.
  step (pointwise_same smul d d U3 R0) UR HUR HsUR.
  assert (Hla : length (col_sums UR) = d)
    by (rewrite length_col_sums; apply (has_shape_ncols d); [lia | exact HsUR]).
  step (pointwise_row_l smul d d (col_sums UR) U3) aU HaU HsaU.
  step (pointwise_same ssub d d R0 aU) RaU HRaU HsRaU.
  eexists. split; [reflexivity|]. cbn [fst snd].
  split; [exact HsU3|]. split; [by apply has_shape_add_eps|]. by split.
Qed.

(** *** One round and the loop, for two or more probes *)

Lemma loop_body_runs (d p n k : nat) (cl : matrix → result matrix) (st : loop_state) :
  2 ≤ d → 2 ≤ p → 1 ≤ k → k ≤ n → keeps_shape d cl → state_shape d p n st →
  ∃ st', loop_body cl k st = Ok st' ∧ state_shape d p n st'.
Proof.
  intros Hd Hp Hk Hkn Hcl (HsU & Hsrhs & HsQ & Hsa & Hsb). unfold loop_body.
  pose proof (has_shape3_prefix p d n k _ Hkn HsQ) as HsQk.
  destruct (lanczos_step_batch_runs d p k cl _ _ _ Hd Hp Hk Hcl HsU Hsrhs HsQk)
    as ([[[U' rhs'] a] b] & He & HsU' & Hsrhs' & Hla & Hlb).
  rewrite He. cbn [bind fst snd] in *.
  destruct Hsa as [Hal Har]. destruct Hsb as [Hbl Hbr].
  destruct (set_column_Ok k a (st_alpha st)) as [alpha Halpha]; [unalias; lia|].
  rewrite Halpha. cbn [bind].
  destruct (set_column_Ok k b (st_beta st)) as [beta Hbeta]; [unalias; lia|].
  rewrite Hbeta. cbn [bind].
  destruct (set_Q_column_Ok k p d n U' (st_Q st)) as (Q' & HQ' & HsQ');
    [lia | lia | exact HsU' | exact HsQ |].
  rewrite HQ'. cbn [bind]. eexists. split; [reflexivity|].
  unfold state_shape. cbn [st_U st_rhs st_Q st_alpha st_beta].
  split; [exact HsU'|]. split; [exact Hsrhs'|]. split; [exact HsQ'|].
  split; (split; [erewrite set_column_length by eassumption; assumption
                 | eapply set_column_rows; eassumption]).
Qed.

Lemma lanczos_loop_runs (d p n : nat) (cl : matrix → result matrix) :
  2 ≤ d → 2 ≤ p → keeps_shape d cl →
  ∀ m a last st, 1 ≤ a → a + m ≤ S n → state_shape d p n st →
    ∃ r, lanczos_loop cl (seq a m) last st = Ok r.
Proof.
  intros Hd Hp Hcl. induction m as [|m IH]; intros a last st Ha Ham Hst.
  - by eexists.
  - cbn [seq lanczos_loop].
    destruct (loop_body_runs d p n a cl st) as (st' & Hb & Hst'); [lia..|assumption|assumption|].
    rewrite Hb. cbn [bind]. destruct (breakdown a st'); [by eexists|].
    apply IH; [lia | lia | exact Hst'].
Qed.

(** X10: For a batch of two or more probes and an operator that keeps the
    shape of its argument, lines 30 to 57 raise nothing: the iteration
    returns, and with [min(max_iter, dim) >= 2] the loop variable is bound
    to a round between 1 and [min(max_iter, dim) - 1].  With as many
    probes as dimensions the [(dim, num)] and [(num, dim)] tensors of lines
    38, 54 and 81 have one shape; otherwise they meet in flat order. *)
Theorem lanczos_iterate_returns (max_iter d p : nat) (cl : matrix → result matrix)
    (rhs : matrix) :
  has_shape d p rhs → 1 ≤ d → 2 ≤ p → 1 ≤ max_iter → keeps_shape d cl →
  (∃ ko st, lanczos_iterate max_iter cl rhs = Ok (ko, st)) ∧
  (2 ≤ min max_iter d →
   ∃ k st, lanczos_iterate max_iter cl rhs = Ok (Some k, st) ∧
           1 ≤ k ∧ k ≤ min max_iter d - 1).
Proof.
  intros Hrhs Hd Hp Hmax Hcl.
  assert (Hrun : ∃ ko st, lanczos_iterate max_iter cl rhs = Ok (ko, st)).
  { unfold lanczos_iterate. cbv zeta. rewrite (has_shape_nrows _ _ _ Hrhs).
    set (n := min max_iter d).
    destruct (init_state_runs n d p cl rhs) as (st0 & _ & _ & _ & Hi & Hst0 & _);
      [lia | lia | lia | exact Hcl | exact Hrhs |].
    rewrite Hi. cbn [bind].
    destruct (decide (d = 1)) as [->|Hd1].
    - replace n with 1 by lia. cbn. by eexists _, _.
    - destruct (lanczos_loop_runs d p n cl ltac:(lia) Hp Hcl (n - 1) 1 None st0)
        as ([ko st] & Hl); [lia | lia | exact Hst0 |].
      by exists ko, st. }
  split; [exact Hrun|]. intros Hn. destruct Hrun as (ko & st & Hit).
  pose proof (lanczos_iterate_inv _ _ _ _ _ Hit) as Hinv. cbv zeta in Hinv.
  rewrite (has_shape_nrows _ _ _ Hrhs) in Hinv.
  destruct Hinv as (st0 & _ & _ & _ & _ & _ & [(Hn1 & _)|(k & Hko & Hk1 & Hk2 & _)]); [lia|].
  subst ko. exists k, st. split; [exact Hit|]. lia.
Qed.

(** X7: A single probe on a dimension of 2 or more gets no result: with
    [max_iter >= 2] and an operator that keeps the shape of its argument,
    round 1 subtracts the [(1, dim)] projection from the [(dim, 1)] vector
    (line 81), which broadcasts to [(dim, dim)]; the step returns [dim]
    coefficients and their assignment to [alpha[:, 1]] (line 52) raises. *)
Theorem single_probe_raises (max_iter d : nat) (cl : matrix → result matrix)
    (rhs : matrix) :
  has_shape d 1 rhs → 2 ≤ d → 2 ≤ max_iter → keeps_shape d cl →
  (∃ st0 e,
     init_state (min max_iter d) cl rhs = Ok st0 ∧
     _lanczos_step_batch (st_U st0) (st_rhs st0) cl (Q_prefix 1 (st_Q st0)) = Ok e ∧
     length e.1.2 = d ∧ length (st_alpha st0) = 1 ∧
     set_column 1 e.1.2 (st_alpha st0) = Err SizeMismatch) ∧
  lanczos_iterate max_iter cl rhs = Err SizeMismatch ∧
  lanczos_batch max_iter cl rhs = Err SizeMismatch.
Proof.
  intros Hrhs Hd Hmax Hcl. set (n := min max_iter d).
  destruct (init_state_runs n d 1 cl rhs) as (st0 & _ & _ & _ & Hi & Hst0 & _);
    [lia | lia | lia | exact Hcl | exact Hrhs |].
  destruct Hst0 as (HsU & Hsrhs & HsQ & [Hal Har] & Hsb).
  pose proof (has_shape3_prefix 1 d n 1 _ ltac:(lia) HsQ) as HsQ1.
  destruct (lanczos_step_batch_single d 1 cl _ _ _ Hd ltac:(lia) Hcl HsU Hsrhs HsQ1)
    as (e & He & _ & _ & Hla & _).
  assert (Hset : set_column 1 e.1.2 (st_alpha st0) = Err SizeMismatch)
    by (apply set_column_Err; unalias; lia).
  assert (Hbody : loop_body cl 1 st0 = Err SizeMismatch).
  { unfold loop_body. rewrite He. cbn [bind]. by rewrite Hset. }
  assert (Hit : lanczos_iterate max_iter cl rhs = Err SizeMismatch).
  { unfold lanczos_iterate. cbv zeta. rewrite (has_shape_nrows _ _ _ Hrhs). fold n.
    rewrite Hi. cbn [bind]. replace (n - 1) with (S (n - 2)) by lia.
    cbn [seq lanczos_loop]. by rewrite Hbody. }
  split; [by exists st0, e|]. split; [exact Hit|].
  unfold lanczos_batch. cbv zeta. by rewrite Hit.
Qed.

Lemma col_sums_entries (r c : nat) (M : matrix) :
  1 ≤ r → has_shape r c M →
  col_sums M = map (λ j, ssum (map (λ i, entry M i j) (seq 0 r))) (seq 0 c).
Proof.
  intros Hr HM. unfold col_sums, transpose, tabulate2.
  rewrite (has_shape_nrows _ _ _ HM), (has_shape_ncols _ _ _ Hr HM).
  by rewrite map_map.
Qed.

Lemma entry_pointwise_same (f : R → R → R) (r c : nat) (A B M : matrix) (i j : nat) :
  1 ≤ r → has_shape r c A → has_shape r c B → pointwise f A B = Ok M →
  i < r → j < c → entry M i j = f (entry A i j) (entry B i j).
Proof.
  intros Hr HA HB HM Hi Hj. unfold pointwise in HM.
  rewrite (has_shape_nrows _ _ _ HA), (has_shape_nrows _ _ _ HB),
    (has_shape_ncols _ _ _ Hr HA), (has_shape_ncols _ _ _ Hr HB), !fits_same in HM.
  cbn [andb] in HM. injection HM as <-. rewrite !bsize_same.
  rewrite entry_tabulate2 by assumption.
  assert (Hb : ∀ a x, x < a → bidx a x = x).
  { intros a x Hx. unfold bidx. destruct (a =? 1) eqn:E; [|reflexivity].
    apply Nat.eqb_eq in E. lia. }
  by rewrite !Hb.
Qed.

(** X11: With [min(max_iter, dim) = 2], two or more probes and an operator
    that keeps the shape of its argument, the loop makes its one round and
    [lanczos_batch] returns; the matrix returned for probe [j] is the
    1 x 1 matrix of [alpha_0 = sum over d of U[d, j] * (A U)[d, j]], where
    [U] is the probe tensor with its columns scaled to unit norm.  What
    round 1 computes is not used. *)
Theorem lanczos_batch_two_iters_rayleigh (max_iter d p : nat)
    (cl : matrix → result matrix) (rhs : matrix) :
  has_shape d p rhs → 2 ≤ p → min max_iter d = 2 → keeps_shape d cl →
  ∃ U AU Qs Ts,
    div_cols rhs = Ok U ∧ cl U = Ok AU ∧
    lanczos_batch max_iter cl rhs = Ok (Qs, Ts) ∧
    length Ts = p ∧
    ∀ j, j < p →
      Ts !! j = Some [[ssum (map (λ i, smul (entry U i j) (entry AU i j)) (seq 0 d))]].
Proof.
  intros Hrhs Hp Hn Hcl.
  destruct (init_state_runs 2 d p cl rhs)
    as (st0 & U & AU & UR & Hi & Hst0 & HU & HAU & HUR & HsU & HsAU & Ha0);
    [lia | lia | lia | exact Hcl | exact Hrhs |].
  destruct (loop_body_runs d p 2 1 cl st0) as (st1 & Hb & Hst1);
    [lia | lia | lia | lia | exact Hcl | exact Hst0 |].
  assert (Hit : lanczos_iterate max_iter cl rhs = Ok (Some 1, st1)).
  { unfold lanczos_iterate. cbv zeta. rewrite (has_shape_nrows _ _ _ Hrhs), Hn, Hi.
    cbn [bind Nat.sub seq lanczos_loop]. rewrite Hb. cbn [bind]. by destruct (breakdown 1 st1). }
  destruct (loop_body_keeps_columns _ _ _ _ Hb) as (Ha1 & _ & _).
  assert (HsUR : has_shape d p UR).
  { destruct (pointwise_same smul d p U AU ltac:(lia) HsU HsAU) as (UR' & HUR' & Hs).
    rewrite HUR in HUR'. by injection HUR' as <-. }
  exists U, AU, (Q_prefix 1 (st_Q st1)), (map (λ a, [[a]]) (col_sums UR)).
  split; [exact HU|]. split; [exact HAU|]. split; [|split].
  - unfold lanczos_batch. cbv zeta. rewrite Hit. cbn [bind fst snd].
    unfold assemble. cbn [Nat.eqb]. do 2 f_equal.
    rewrite <- (map_map (take 1) (λ t, [t])), Ha1, Ha0. by rewrite map_map.
  - rewrite length_map, length_col_sums. apply (has_shape_ncols d); [lia | exact HsUR].
  - intros j Hj. rewrite lookup_map, (col_sums_entries d p UR ltac:(lia) HsUR), lookup_map.
    rewrite lookup_seq_lt by exact Hj. cbn [fmap option_fmap option_map Nat.add].
    do 4 f_equal. apply map_ext_in. intros i Hi'. apply in_seq in Hi'.
    apply (entry_pointwise_same smul d p U AU UR); [lia|assumption..|lia|lia].
Qed.

End Runs.

Section OneIteration.
Context {R : Type} `{Scalar R}.
#[local] Abbreviation vec := (@vec R).
#[local] Abbreviation matrix := (@matrix R).
Variable symeig : matrix → vec * matrix.

(** C10: with [min(max_iter, dim) = 1] the loop body never runs and
    [lanczos_batch] does not return.  When lines 37 to 47 raise nothing, as
    for every batch of at least one probe and every operator that keeps the
    shape of its argument, it fails on the unbound loop variable, and so
    does [evaluate] on a closure operator; a call that returns had
    [min(max_iter, dim) >= 2]. *)
Theorem lanczos_batch_needs_two_iters (max_iter p : nat) (cl : matrix → result matrix)
    (n : nat) (rhs : matrix) (funcs : list (vec → vec)) (rng : nat → bool) (pos : nat) :
  (min max_iter (nrows rhs) = 1 →
     (∃ e, lanczos_batch max_iter cl rhs = Err e) ∧
     ((∃ st0, init_state 1 cl rhs = Ok st0) →
        lanczos_batch max_iter cl rhs = Err UnboundLocalError) ∧
     (∀ d q, has_shape d q rhs → 1 ≤ q → keeps_shape d cl →
        lanczos_batch max_iter cl rhs = Err UnboundLocalError)) ∧
  (min max_iter n = 1 →
     (∃ e, (evaluate symeig max_iter p (ClosureOp cl) n funcs rng pos).1 = Err e) ∧
     (1 ≤ p → keeps_shape n cl →
        (evaluate symeig max_iter p (ClosureOp cl) n funcs rng pos).1
        = Err UnboundLocalError)) ∧
  (∀ r, lanczos_batch max_iter cl rhs = Ok r → 2 ≤ min max_iter (nrows rhs)).
Proof.
  split; [|split].
  - intros Hn. destruct (lanczos_batch_one_iter max_iter cl rhs Hn) as [He Hu].
    split; [exact He|]. split; [intros [st0 Hst0]; by apply (Hu st0)|].
    intros d q Hrhs Hq Hcl.
    assert (Hd : d = nrows rhs) by (symmetry; by apply (has_shape_nrows d q)).
    destruct (init_state_runs 1 d q cl rhs) as (st0 & _ & _ & _ & Hi & _);
      [lia | lia | exact Hq | exact Hcl | exact Hrhs |].
    by apply (Hu st0).
  - intros Hn. destruct (probe_batch_shape rng pos n p) as (V & HV & Hr & _ & HsV); [lia|].
    assert (Hn' : min max_iter (nrows V) = 1) by (by rewrite Hr).
    destruct (lanczos_batch_one_iter max_iter cl V Hn') as [[e He] Hu].
    unfold evaluate. cbn [fst]. rewrite HV. cbn [bind]. split.
    + exists e. by rewrite He.
    + intros Hp Hcl.
      destruct (init_state_runs 1 n p cl V) as (st0 & _ & _ & _ & Hi & _);
        [lia | lia | exact Hp | exact Hcl | exact HsV |].
      by rewrite (Hu st0 Hi).
  - intros r Hr.
    destruct (lanczos_batch_Ok_inv _ _ _ _ Hr) as (k & _ & _ & _ & _ & _ & _ & Hk & Hkn & _).
    lia.
Qed.

End OneIteration.

Section MoreEstimatorFacts.
Context {R : Type} `{Scalar R}.
#[local] Abbreviation vec := (@vec R).
#[local] Abbreviation matrix := (@matrix R).
#[local] Abbreviation operator := (@operator R).
Variable symeig : matrix → vec * matrix.

(** *** The size test of [dot] *)

Lemma quad_term_cases (n p : nat) (func : vec → vec) (fY : vec * matrix) :
  (∃ t, quad_term n p func fY = Ok t ∧
        length (func (map (λ x, sadd x lit_1_1e_4) fY.1)) = length (nth 0 fY.2 [])) ∨
  (quad_term n p func fY = Err SizeMismatch ∧
   length (func (map (λ x, sadd x lit_1_1e_4) fY.1)) ≠ length (nth 0 fY.2 [])).
Proof.
  destruct (decide (length (func (map (λ x, sadd x lit_1_1e_4) fY.1))
                    = length (nth 0 fY.2 []))) as [He|Hne].
  - left. eexists. split; [by apply quad_term_Ok | exact He].
  - right. split; [by apply quad_term_Err | exact Hne].
Qed.

Lemma accumulate_cases (n p : nat) (fY : vec * matrix) :
  ∀ (ifuncs : list (nat * (vec → vec))) (results : list R),
    (∃ r, accumulate n p ifuncs fY results = Ok r ∧
          ∀ ifn, ifn ∈ ifuncs →
            length (ifn.2 (map (λ x, sadd x lit_1_1e_4) fY.1)) = length (nth 0 fY.2 [])) ∨
    (accumulate n p ifuncs fY results = Err SizeMismatch ∧
     ∃ ifn, ifn ∈ ifuncs ∧
       length (ifn.2 (map (λ x, sadd x lit_1_1e_4) fY.1)) ≠ length (nth 0 fY.2 [])).
Proof.
  induction ifuncs as [|[i func] ifuncs IH]; intros results.
  - left. exists results. split; [reflexivity|]. intros ifn Hin. by apply elem_of_nil in Hin.
  - cbn [accumulate].
    destruct (quad_term_cases n p func fY) as [(t & Ht & Hlen)|(Ht & Hlen)]; rewrite Ht;
      cbn [bind].
    + destruct (IH (<[i:=sadd (nth i results szero) t]> results))
        as [(r & Hr & Hall)|(Hr & ifn & Hin & Hne)].
      * left. exists r. split; [exact Hr|].
        intros ifn Hin. apply elem_of_cons in Hin as [->|Hin]; [exact Hlen | by apply Hall].
      * right. split; [exact Hr|]. exists ifn. split; [by right | exact Hne].
    + right. split; [reflexivity|]. exists (i, func). split; [by left | exact Hlen].
Qed.

Lemma accumulate_length (n p : nat) (fY : vec * matrix) :
  ∀ (ifuncs : list (nat * (vec → vec))) (results r : list R),
    accumulate n p ifuncs fY results = Ok r → length r = length results.
Proof.
  induction ifuncs as [|[i func] ifuncs IH]; intros results r Hr; cbn [accumulate] in Hr.
  - by injection Hr as <-.
  - inv_bind Hr. apply IH in Hr. by rewrite length_insert in Hr.
Qed.

Lemma probe_loop_length (n p : nat) (funcs : list (vec → vec)) (Ts : list matrix) :
  ∀ (js : list nat) (results r : list R),
    probe_loop symeig n p funcs Ts js results = Ok r → length r = length results.
Proof.
  induction js as [|j js IH]; intros results r Hr; cbn [probe_loop] in Hr.
  - by injection Hr as <-.
  - destruct (Ts !! j) as [T|]; [|discriminate]. inv_bind Hr.
    apply IH in Hr. apply accumulate_length in E. unalias. lia.
Qed.

Lemma probe_loop_cases (n p : nat) (funcs : list (vec → vec)) (Ts : list matrix) :
  ∀ (js : list nat) (results : list R),
    (∀ j, j ∈ js → j < length Ts) →
    (∃ r, probe_loop symeig n p funcs Ts js results = Ok r ∧
          ∀ j T func, j ∈ js → Ts !! j = Some T → func ∈ funcs →
            length (func (map (λ x, sadd x lit_1_1e_4) (quad_nodes symeig T).1))
            = length (nth 0 (quad_nodes symeig T).2 [])) ∨
    (probe_loop symeig n p funcs Ts js results = Err SizeMismatch ∧
     ∃ j T func, j ∈ js ∧ Ts !! j = Some T ∧ func ∈ funcs ∧
       length (func (map (λ x, sadd x lit_1_1e_4) (quad_nodes symeig T).1))
       ≠ length (nth 0 (quad_nodes symeig T).2 [])).
Proof.
  induction js as [|j js IH]; intros results Hjs.
  - left. exists results. split; [reflexivity|]. intros j T func Hin. by apply elem_of_nil in Hin.
  - cbn [probe_loop].
    destruct (lookup_lt_is_Some_2 Ts j) as [T HT]; [apply Hjs; by left|]. rewrite HT.
    assert (Hmem : ∀ ifn, ifn ∈ zip (seq 0 (length funcs)) funcs → ifn.2 ∈ funcs).
    { intros [i func] Hin. apply list_elem_of_lookup_1 in Hin as [i' Hi'].
      apply lookup_zip_Some in Hi' as [_ Hf]. cbn. eapply list_elem_of_lookup_2, Hf. }
    assert (Hmem' : ∀ func, func ∈ funcs →
              ∃ i, (i, func) ∈ zip (seq 0 (length funcs)) funcs).
    { intros func Hin. apply list_elem_of_lookup_1 in Hin as [i Hi]. exists i.
      apply (list_elem_of_lookup_2 _ i). apply lookup_zip_Some. split; [|exact Hi].
      apply lookup_seq. split; [reflexivity|]. eapply lookup_lt_Some, Hi. }
    destruct (accumulate_cases n p (quad_nodes symeig T)
                (zip (seq 0 (length funcs)) funcs) results)
      as [(r & Hr & Hall)|(Hr & ifn & Hin & Hne)]; rewrite Hr; cbn [bind].
    + destruct (IH r) as [(r' & Hr' & Hall')|(Hr' & j' & T' & func & Hj' & HT' & Hf & Hne)];
        [intros j' Hj'; apply Hjs; by right|..].
      * left. exists r'. split; [exact Hr'|].
        intros j' T' func Hj' HT' Hf. apply elem_of_cons in Hj' as [->|Hj'].
        -- rewrite HT in HT'. injection HT' as <-.
           destruct (Hmem' func Hf) as [i Hi]. exact (Hall (i, func) Hi).
        -- by eapply Hall'.
      * right. split; [exact Hr'|]. exists j', T', func. split; [by right|done].
    + right. split; [reflexivity|]. exists j, T, ifn.2.
      split; [by left|]. split; [exact HT|]. split; [by apply Hmem | exact Hne].
Qed.

(** X9: When the reduction has returned, the two loops of [evaluate] raise
    exactly when some requested function returns, for the nodes of some
    probe, a tensor of another size than it was given: [dot] at line 137
    then raises.  Otherwise [evaluate] returns one estimate per function.
    The [n * p] random bits are read in either case. *)
Theorem evaluate_size_check (max_iter p : nat) (op : operator) (n : nat)
    (funcs : list (vec → vec)) (rng : nat → bool) (pos : nat)
    (V : matrix) (Qs Ts : list matrix) :
  takes_shortcut op = false →
  probe_batch rng pos n p = Ok V →
  lanczos_batch max_iter (op_closure op) V = Ok (Qs, Ts) →
  let nodes := λ T : matrix,
    if sltb (py_min (symeig T).1) (sopp lit_1e_4)
    then symeig (submatrix (max (binary_search_symeig symeig T) 1) T)
    else symeig T in
  let size_kept := λ (func : vec → vec) (T : matrix),
    length (func (map (λ x, sadd x lit_1_1e_4) (nodes T).1))
    = length (nth 0 (nodes T).2 []) in
  ((∃ func T, func ∈ funcs ∧ T ∈ Ts ∧ ¬ size_kept func T) ↔
   evaluate symeig max_iter p op n funcs rng pos = (Err SizeMismatch, pos + n * p)) ∧
  ((∀ func T, func ∈ funcs → T ∈ Ts → size_kept func T) ↔
   ∃ res, evaluate symeig max_iter p op n funcs rng pos
          = (Ok (Estimates res), pos + n * p) ∧ length res = length funcs).
Proof.
  intros Hs HV Hl nodes size_kept.
  pose proof (probe_count _ _ _ _ _ _ _ _ _ HV Hl) as HTs.
  rewrite evaluate_run by exact Hs. rewrite HV. cbn [bind]. rewrite Hl. cbn [bind snd].
  assert (Hnodes : ∀ T, quad_nodes symeig T = nodes T) by apply quad_nodes_unfold.
  destruct (probe_loop_cases n p funcs Ts (seq 0 p) (replicate (length funcs) szero))
    as [(r & Hr & Hall)|(Hr & j & T & func & Hj & HT & Hf & Hne)];
    [intros j Hj; apply elem_of_seq in Hj; lia|..]; rewrite Hr; cbn [bind].
  - assert (Hall' : ∀ func T, func ∈ funcs → T ∈ Ts → size_kept func T).
    { intros func T Hf HT. apply list_elem_of_lookup_1 in HT as [j HT].
      unfold size_kept. rewrite <- Hnodes. apply (Hall j T func); [|exact HT|exact Hf].
      apply elem_of_seq. apply lookup_lt_Some in HT. lia. }
    split; split.
    + intros (func & T & Hf & HT & Hne). exfalso. by apply Hne, Hall'.
    + discriminate.
    + intros _. exists r. split; [reflexivity|].
      apply probe_loop_length in Hr. by rewrite length_replicate in Hr.
    + intros _. exact Hall'.
  - assert (Hex : ∃ func T, func ∈ funcs ∧ T ∈ Ts ∧ ¬ size_kept func T).
    { exists func, T. split; [exact Hf|]. split; [eapply list_elem_of_lookup_2, HT|].
      unfold size_kept. by rewrite <- Hnodes. }
    split; split.
    + intros _. reflexivity.
    + intros _. exact Hex.
    + intros Hall. exfalso. destruct Hex as (func' & T' & Hf' & HT' & Hne').
      by apply Hne', Hall.
    + intros (res & [=] & _).
Qed.

End MoreEstimatorFacts.

Lemma default_matmul_closure_keeps_shape {R : Type} `{Scalar R} (d : nat)
    (lhs : @matrix R) :
  1 ≤ d → has_shape d d lhs → keeps_shape d (default_matmul_closure lhs).
Proof.
  intros Hd Hlhs X c HX. unfold default_matmul_closure.
  rewrite (has_shape_ncols _ _ _ Hd Hlhs), (has_shape_nrows _ _ _ HX), Nat.eqb_refl.
  eexists. split; [reflexivity|]. destruct Hlhs as [Hl _]. split; [by rewrite length_map|].
  apply Forall_forall. intros row Hrow.
  apply list_elem_of_In, in_map_iff in Hrow as (row0 & <- & _).
  rewrite length_map. unfold transpose. rewrite length_tabulate2.
  by apply (has_shape_ncols d).
Qed.

Lemma op_circ_keeps_shape : keeps_shape 3 (default_matmul_closure op_circ).
Proof.
  apply default_matmul_closure_keeps_shape; [lia|].
  split; [reflexivity | by repeat constructor].
Qed.

Lemma single_probe_raises_witness :
  has_shape 3 1 [[1]; [0]; [0]]%float ∧ 2 ≤ 3 ∧ 2 ≤ 15 ∧
  keeps_shape 3 (default_matmul_closure op_circ) ∧
  (∃ st0 e,
     init_state (min 15 3) (default_matmul_closure op_circ) [[1]; [0]; [0]]%float = Ok st0 ∧
     _lanczos_step_batch (st_U st0) (st_rhs st0) (default_matmul_closure op_circ)
                         (Q_prefix 1 (st_Q st0)) = Ok e ∧
     length e.1.2 = 3 ∧ length (st_alpha st0) = 1 ∧
     set_column 1 e.1.2 (st_alpha st0) = Err SizeMismatch) ∧
  lanczos_iterate 15 (default_matmul_closure op_circ) [[1]; [0]; [0]]%float
    = Err SizeMismatch ∧
  lanczos_batch 15 (default_matmul_closure op_circ) [[1]; [0]; [0]]%float
    = Err SizeMismatch.
Proof.
  assert (Hs : has_shape 3 1 [[1]; [0]; [0]]%float)
    by (split; [reflexivity | by repeat constructor]).
  split; [exact Hs|]. split; [lia|]. split; [lia|]. split; [exact op_circ_keeps_shape|].
  apply (single_probe_raises 15 3 (default_matmul_closure op_circ) [[1]; [0]; [0]]%float);
    [exact Hs | lia | lia | exact op_circ_keeps_shape].
Defined.

Lemma evaluate_size_check_witness :
  ∃ V Qs Ts,
    takes_shortcut (TensorOp op_circ) = false ∧
    probe_batch bits_3x3 0 3 3 = Ok V ∧
    lanczos_batch 15 (op_closure (TensorOp op_circ)) V = Ok (Qs, Ts) ∧
    let funcs : list (list float → list float) := [map (λ x, x); take 1] in
    let nodes := λ T : list (list float),
      if sltb (py_min (symeig_small T).1) (sopp lit_1e_4)
      then symeig_small (submatrix (max (binary_search_symeig symeig_small T) 1) T)
      else symeig_small T in
    let size_kept := λ (func : list float → list float) (T : list (list float)),
      length (func (map (λ x, sadd x lit_1_1e_4) (nodes T).1))
      = length (nth 0 (nodes T).2 []) in
    (((∃ func T, func ∈ funcs ∧ T ∈ Ts ∧ ¬ size_kept func T) ↔
      evaluate symeig_small 15 3 (TensorOp op_circ) 3 funcs bits_3x3 0
      = (Err SizeMismatch, 0 + 3 * 3)) ∧
     ((∀ func T, func ∈ funcs → T ∈ Ts → size_kept func T) ↔
      ∃ res, evaluate symeig_small 15 3 (TensorOp op_circ) 3 funcs bits_3x3 0
             = (Ok (Estimates res), 0 + 3 * 3) ∧ length res = length funcs)) ∧
    evaluate symeig_small 15 3 (TensorOp op_circ) 3 funcs bits_3x3 0
      = (Err SizeMismatch, 9).
Proof.
  eexists _, _, _. split; [reflexivity|]. split; [vm_compute; reflexivity|].
  split; [vm_compute; reflexivity|].
  intros funcs nodes size_kept. split; [|vm_compute; reflexivity].
  eapply (evaluate_size_check symeig_small 15 3 (TensorOp op_circ) 3 funcs bits_3x3 0).
  - reflexivity.
  - vm_compute; reflexivity.
  - vm_compute; reflexivity.
Defined.

Lemma lanczos_iterate_returns_witness :
  has_shape 3 3 probes_3x3 ∧ 1 ≤ 3 ∧ 2 ≤ 3 ∧ 1 ≤ 15 ∧
  keeps_shape 3 (default_matmul_closure op_circ) ∧
  (∃ ko st, lanczos_iterate 15 (default_matmul_closure op_circ) probes_3x3 = Ok (ko, st)) ∧
  (2 ≤ min 15 3 →
   ∃ k st, lanczos_iterate 15 (default_matmul_closure op_circ) probes_3x3 = Ok (Some k, st) ∧
           1 ≤ k ∧ k ≤ min 15 3 - 1).
Proof.
  assert (Hs : has_shape 3 3 probes_3x3)
    by (split; [reflexivity | by repeat constructor]).
  split; [exact Hs|]. split; [lia|]. split; [lia|]. split; [lia|].
  split; [exact op_circ_keeps_shape|].
  apply (lanczos_iterate_returns 15 3 3 (default_matmul_closure op_circ) probes_3x3);
    [exact Hs | lia | lia | lia | exact op_circ_keeps_shape].
Defined.

Lemma lanczos_batch_two_iters_rayleigh_witness :
  has_shape 3 3 [[1; 1; 0]; [0; 1; 0]; [0; 0; 1]]%float ∧ 2 ≤ 3 ∧ min 2 3 = 2 ∧
  keeps_shape 3 (default_matmul_closure op_circ) ∧
  (∃ U AU Qs Ts,
     div_cols [[1; 1; 0]; [0; 1; 0]; [0; 0; 1]]%float = Ok U ∧
     default_matmul_closure op_circ U = Ok AU ∧
     lanczos_batch 2 (default_matmul_closure op_circ)
                   [[1; 1; 0]; [0; 1; 0]; [0; 0; 1]]%float = Ok (Qs, Ts) ∧
     length Ts = 3 ∧
     ∀ j, j < 3 →
       Ts !! j = Some [[ssum (map (λ i, smul (entry U i j) (entry AU i j)) (seq 0 3))]]) ∧
  (∃ Qs, lanczos_batch 2 (default_matmul_closure op_circ)
                       [[1; 1; 0]; [0; 1; 0]; [0; 0; 1]]%float
         = Ok (Qs, [[[2]]; [[2.9999999999999996]]; [[2]]]%float)).
Proof.
  assert (Hs : has_shape 3 3 [[1; 1; 0]; [0; 1; 0]; [0; 0; 1]]%float)
    by (split; [reflexivity | by repeat constructor]).
  split; [exact Hs|]. split; [lia|]. split; [reflexivity|].
  split; [exact op_circ_keeps_shape|]. split.
  - apply (lanczos_batch_two_iters_rayleigh 2 3 3 (default_matmul_closure op_circ)
             [[1; 1; 0]; [0; 1; 0]; [0; 0; 1]]%float);
      [exact Hs | lia | reflexivity | exact op_circ_keeps_shape].
  - eexists. vm_compute. reflexivity.
Defined.

Lemma lanczos_batch_needs_two_iters_witness :
  min 15 (nrows [[1]%float]) = 1 ∧ min 15 1 = 1 ∧
  has_shape 1 1 [[1]%float] ∧ keeps_shape 1 (default_matmul_closure [[2]%float]) ∧
  (∃ st0, init_state 1 (default_matmul_closure [[2]%float]) [[1]%float] = Ok st0) ∧
  lanczos_batch 15 (default_matmul_closure [[2]%float]) [[1]%float]
    = Err UnboundLocalError ∧
  (evaluate symeig_small 15 1 (ClosureOp (default_matmul_closure [[2]%float])) 1
            [map (λ x, sdiv (sofnat 1) x)] all_ones 0).1 = Err UnboundLocalError.
Proof.
  assert (Hs : has_shape 1 1 [[1]%float]) by (split; [reflexivity | by repeat constructor]).
  assert (Hk : keeps_shape 1 (default_matmul_closure [[2]%float])).
  { apply default_matmul_closure_keeps_shape; [lia|].
    split; [reflexivity | by repeat constructor]. }
  destruct (lanczos_batch_needs_two_iters symeig_small 15 1
              (default_matmul_closure [[2]%float]) 1 [[1]%float]
              [map (λ x, sdiv (sofnat 1) x)] all_ones 0) as (H1 & H2 & _).
  split; [reflexivity|]. split; [reflexivity|]. split; [exact Hs|]. split; [exact Hk|].
  split; [eexists; vm_compute; reflexivity|]. split.
  - destruct (H1 eq_refl) as (_ & _ & Hu). apply (Hu 1 1 Hs); [lia | exact Hk].
  - destruct (H2 eq_refl) as (_ & Hu). apply Hu; [lia | exact Hk].
Defined.
